(** * Email.py: the [Email] address model, the breach check and the crawl loop

    A shallow embedding of [src/Email.py] and the properties of its
    specification.

    Modelling conventions.
    - Python text ([str]) is a Rocq [string]; a character is read as the code
      point 0..255 (ASCII and Latin-1), and [lower] / [isnumeric] follow
      Python's tables on that range. Text with a code point above 255 is
      outside the model, and every statement about text is a statement about
      text of that range.
    - A Python exception is a value of [exn]; a call that may raise returns
      a [result].
    - Python floats ([pwned_sleep], [0.9 * len(visited)]) are binary64
      primitive floats.
    - Sets of text are [gset string]; the set of collected [Email] objects is
      a [gmap] keyed by the text value of the object, which is what hashing
      and equality of a [str] subclass look at.
    - The network, the HTML parser and [time.sleep] are outside the program:
      their answers are arguments (for [time.sleep]: that it returns, or the
      exception it raises), their calls are recorded in a trace. *)

From Stdlib Require Import Floats ZArith Uint63 Ascii String DecimalString.
From stdpp Require Import gmap strings list.

Set Warnings "-inexact-float,-clear-no-such-hyp".

Local Open Scope Z_scope.

#[local] Arguments String.append : simpl nomatch.

(** ** Exceptions and results *)

Inductive exn :=
| ValueError (msg : string)
| TypeError (msg : string)
| NameError (msg : string)
| RequestException (msg : string)
| OverflowError (msg : string)
| Exception (msg : string).

Inductive result (A : Type) :=
| Ok (a : A)
| Raise (e : exn).
Arguments Ok {A} a.
Arguments Raise {A} e.

Definition bind {A B} (r : result A) (k : A → result B) : result B :=
  match r with
  | Ok a => k a
  | Raise e => Raise e
  end.

Notation "'do' x <- r ; k" := (bind r (fun x => k))
  (at level 10, x name, r at level 100, k at level 200).

(** ** Text *)

Module Str.

Definition code (c : ascii) : Z := Z.of_N (N_of_ascii c).

(** [str.lower] on one character of the range 0..255: A-Z and the Latin-1
    capitals (0xC0..0xDE without the multiplication sign 0xD7) move up by
    32. On this range [str.lower] works character by character and keeps the
    length; beyond it that fails (U+0130 lower-cases to two code points). *)
Definition lower_char (c : ascii) : ascii :=
  let n := code c in
  if ((65 <=? n) && (n <=? 90)) || ((192 <=? n) && (n <=? 222) && negb (n =? 215))
  then ascii_of_N (Z.to_N (n + 32))
  else c.

Fixpoint lower (s : string) : string :=
  match s with
  | EmptyString => EmptyString
  | String c s' => String (lower_char c) (lower s')
  end.

(** Characters with a Unicode numeric value below 256: the digits, the
    superscripts 1 2 3 and the fractions 1/4 1/2 3/4. *)
Definition isnumeric_char (c : ascii) : bool :=
  let n := code c in
  ((48 <=? n) && (n <=? 57))
  || (n =? 178) || (n =? 179) || (n =? 185)
  || (n =? 188) || (n =? 189) || (n =? 190).

Fixpoint all_chars (p : ascii → bool) (s : string) : bool :=
  match s with
  | EmptyString => true
  | String c s' => p c && all_chars p s'
  end.

(** [str.isnumeric]: false on the empty text. *)
Definition isnumeric (s : string) : bool :=
  match s with
  | EmptyString => false
  | _ => all_chars isnumeric_char s
  end.

(** [s.startswith(p)] *)
Fixpoint startswith (s p : string) : bool :=
  match p, s with
  | EmptyString, _ => true
  | String a p', String b s' => Ascii.eqb a b && startswith s' p'
  | String _ _, EmptyString => false
  end.

(** [re.split(sep, s)] and [s.split(sep)] for a one-character separator:
    the list is never empty. *)
Fixpoint split (sep : ascii) (s : string) : list string :=
  match s with
  | EmptyString => [EmptyString]
  | String c s' =>
      if Ascii.eqb c sep then EmptyString :: split sep s'
      else match split sep s' with
           | w :: ws => String c w :: ws
           | [] => [String c EmptyString]
           end
  end.

(** [sep.join(l)] *)
Definition join (sep : string) (l : list string) : string := String.concat sep l.

(** [p in s] on text *)
Fixpoint contains (s p : string) : bool :=
  startswith s p ||
  match s with
  | EmptyString => false
  | String _ s' => contains s' p
  end.

(** [x in l] for a collection of text *)
Definition mem (x : string) (l : list string) : bool := existsb (String.eqb x) l.

Fixpoint drop (n : nat) (s : string) : string :=
  match n, s with
  | S n', String _ s' => drop n' s'
  | _, _ => s
  end.

(** Truth value of an attribute that is [None] or text. *)
Definition truthy (v : option string) : bool :=
  match v with
  | Some (String _ _) => true
  | _ => false
  end.

Definition of_Z (z : Z) : string := NilZero.string_of_int (Z.to_int z).

End Str.

(** ** Regular expressions, as far as [email_pat] needs them *)

Module Re.

Inductive item :=
| Lit (c : ascii)
| Plus (cls : ascii → bool).

(** Backtracking match of a pattern at the start of a text; the result is
    the matched text. A [Plus] takes as many characters as it can and gives
    them back one at a time when the rest of the pattern fails. *)
Fixpoint match_at (p : list item) : string → option string :=
  match p with
  | [] => fun _ => Some EmptyString
  | Lit c :: p' => fun s =>
      match s with
      | String a s' => if Ascii.eqb a c then String a <$> match_at p' s' else None
      | EmptyString => None
      end
  | Plus cls :: p' =>
      fix plus (s : string) : option string :=
        match s with
        | String a s' =>
            if cls a then
              match plus s' with
              | Some m => Some (String a m)
              | None => String a <$> match_at p' s'
              end
            else None
        | EmptyString => None
        end
  end.

(** [re.findall(p, text)] for a pattern without groups that matches no
    empty text: scan from the left, and after a match resume at its end
    ([skip] characters of the last match are still to be passed). *)
Fixpoint findall_from (p : list item) (skip : nat) (text : string) : list string :=
  match text with
  | EmptyString => []
  | String _ text' =>
      match skip with
      | S k => findall_from p k text'
      | O =>
          match match_at p text with
          | Some m => m :: findall_from p (Nat.pred (String.length m)) text'
          | None => findall_from p 0 text'
          end
      end
  end.

Definition findall (p : list item) (text : string) : list string :=
  findall_from p 0 text.

End Re.

(** ** class Email(str) *)

Definition in_range (lo hi c : ascii) : bool :=
  (Str.code lo <=? Str.code c) && (Str.code c <=? Str.code hi).

(** [[a-zA-Z0-9_\-]] *)
Definition word_char (c : ascii) : bool :=
  in_range "a" "z" c || in_range "A" "Z" c || in_range "0" "9" c
  || Ascii.eqb c "_" || Ascii.eqb c "-".

(** [[a-zA-Z0-9_\-\.]] *)
Definition word_dot_char (c : ascii) : bool := word_char c || Ascii.eqb c ".".

Definition email_pat : list Re.item :=
  [Re.Plus word_dot_char; Re.Lit "@"; Re.Plus word_dot_char; Re.Lit "."; Re.Plus word_char].

Definition email_tlds : list string :=
  ["bank"; "com"; "org"; "net"; "int"; "edu"; "gov"; "mil"].

(** [Domain.skip_types] *)
Definition skip_types : list string :=
  ["doc"; "docx"; "xls"; "xlsx"; "pdf"; "png"; "jpg"; "jpeg"; "zip"; "mp3"; "mp4"; "exe"].

(** The attributes of an [Email] object. [email_addr] is also the text value
    of the object itself: [str.__new__] receives the constructor's argument.
    [pwned_status] and [last_error] do not exist before the first breach
    check; [None] stands for that too. *)
Record Email := mkEmail {
  email_addr : string;
  name : string;
  domain : string;
  _tld : option string;
  country : option string;
  pwned_sleep : float;
  pwned_status : option string;
  last_error : option exn
}.

(** [startswith_tld] over a given iteration order of the tld set; the
    Python [False] is [None]. *)
Fixpoint startswith_tld_in (tlds : list string) (test_str : string) : option string :=
  match tlds with
  | [] => None
  | tld :: rest =>
      if Str.startswith (Str.lower test_str) tld then Some tld
      else startswith_tld_in rest test_str
  end.

Definition startswith_tld (test_str : string) : option string :=
  startswith_tld_in email_tlds test_str.

(** The body of the [tld] setter before the assignment. *)
Definition tld_setter_check (value : option string) : result (option string) :=
  match value with
  | Some v =>
      if Str.truthy value && negb (Str.mem (Str.lower v) email_tlds)
      then Raise (TypeError ("Invalid top level domain '" ++ Str.lower v ++ "'"))
      else Ok value
  | None => Ok value
  end.

(** [self.tld = value] on an existing object. *)
Definition set_tld (self : Email) (value : option string) : result Email :=
  do v <- tld_setter_check value;
  Ok (mkEmail (email_addr self) (name self) (domain self) v (country self)
        (pwned_sleep self) (pwned_status self) (last_error self)).

(** [self.tld] *)
Definition tld (self : Email) : option string := _tld self.

(** Lines 44-55 of [__init__]: the country and the tld are taken off the
    end of [domain_list]. The result is the final [domain_list], the value
    assigned to [tld] (if any assignment happens) and [country]. *)
Definition strip_country (domain_list : list string) : list string * option string :=
  if (1 <? length domain_list)%nat && (String.length (List.last domain_list "") =? 2)%nat
  then (removelast domain_list, Some (Str.lower (List.last domain_list "")))
  else (domain_list, None).

Definition strip_tld (domain_list : list string) : list string * option string :=
  if (1 <? length domain_list)%nat then
    match startswith_tld (List.last domain_list "") with
    | Some check_tld => (removelast domain_list, Some check_tld)
    | None => (domain_list, None)
    end
  else (domain_list, None).

(** [Email.__init__] *)
Definition Email_init (email_addr : string) : result Email :=
  match Str.split "@" email_addr with
  | [name; domain] =>
      do tld0 <- tld_setter_check None;
      let domain_list := Str.split "." domain in
      if String.eqb (List.last domain_list "") "x" || Str.mem (List.last domain_list "") skip_types
      then Raise (TypeError ("Invalid domain '" ++ domain ++ "'"))
      else
        if negb (forallb Str.isnumeric domain_list) then
          let '(domain_list, country) := strip_country domain_list in
          let '(domain_list, check_tld) := strip_tld domain_list in
          do tld1 <- match check_tld with
                     | Some t => tld_setter_check (Some t)
                     | None => Ok tld0
                     end;
          Ok (mkEmail email_addr name (Str.join "." domain_list) tld1 country 1.7 None None)
        else
          Ok (mkEmail email_addr name (Str.join "." domain_list) tld0 None 1.7 None None)
  | [_] => Raise (ValueError "not enough values to unpack (expected 2, got 1)")
  | _ => Raise (ValueError "too many values to unpack (expected 2)")
  end.

(** [Email.__str__] *)
Definition Email_str (self : Email) : string :=
  let domain_list := [domain self] in
  let domain_list :=
    match tld self with
    | Some t => if Str.truthy (tld self) then domain_list ++ [t] else domain_list
    | None => domain_list
    end in
  let domain_list :=
    match country self with
    | Some c => if Str.truthy (country self) then domain_list ++ [c] else domain_list
    | None => domain_list
    end in
  name self ++ "@" ++ Str.join "." domain_list.

(** [==] on two [Email] objects is [str.__eq__]: the text values. *)
Definition Email_eq (a b : Email) : bool := String.eqb (email_addr a) (email_addr b).

(** [Email.findall]: the unique matches ([set(...)]), each handed to the
    constructor inside [try ... except: pass] ([try_Email]); the list holds
    the objects in the iteration order of the set. *)
Definition try_Email (item : string) : option Email :=
  match Email_init item with
  | Ok e => Some e
  | Raise _ => None
  end.

Definition Email_findall (text : string) : list Email :=
  let found : gset string := list_to_set (Re.findall email_pat text) in
  omap try_Email (elements found).

(** ** The breach check: the [pwned] property *)

(** What [requests.get] does: it raises, or it returns a response, of which
    the program reads the status code and the headers. *)
Inductive http_result :=
| GetRaises (e : exn)
| GetReturns (status_code : Z) (headers : list (string * string)).

(** What a call does to the outside, in order. *)
Inductive event :=
| Get (url : string)
| Sleep (seconds : float).

Definition is_Get (ev : event) : bool :=
  match ev with
  | Get _ => true
  | Sleep _ => false
  end.

Definition is_Sleep (ev : event) : bool := negb (is_Get ev).

Definition set_last_error (self : Email) (v : option exn) : Email :=
  mkEmail (email_addr self) (name self) (domain self) (_tld self) (country self)
    (pwned_sleep self) (pwned_status self) v.

Definition set_pwned_status (self : Email) (v : string) : Email :=
  mkEmail (email_addr self) (name self) (domain self) (_tld self) (country self)
    (pwned_sleep self) (Some v) (last_error self).

Definition set_pwned_sleep (self : Email) (v : float) : Email :=
  mkEmail (email_addr self) (name self) (domain self) (_tld self) (country self)
    v (pwned_status self) (last_error self).

(** [pwned_status_codes.get(check.status_code, (f'unknown status code ...', None))] *)
Definition pwned_status_codes (status_code : Z) : string * option bool :=
  if status_code =? 200 then ("address breached", Some true)
  else if status_code =? 404 then ("address not breached", Some false)
  else if status_code =? 429 then ("rate limit", None)
  else if status_code =? 503 then ("rate limit", None)
  else (("unknown status code " ++ Str.of_Z status_code)%string, None).

(** [{x.lower(): y for x,y in check.headers.items()}] *)
Definition lower_headers (headers : list (string * string)) : gmap string string :=
  foldl (fun m xy => <[Str.lower xy.1 := xy.2]> m) ∅ headers.

(** [str(e)] of an exception, and of [None]. *)
Definition exn_str (e : exn) : string :=
  match e with
  | ValueError m | TypeError m | NameError m | RequestException m
  | OverflowError m | Exception m => m
  end.

Definition last_error_str (v : option exn) : string :=
  match v with
  | Some e => exn_str e
  | None => "None"
  end.

Definition failed_max_retry (self : Email) : exn :=
  Exception ("pwned " ++ Email_str self ++ ": failed max retry, last error "
             ++ last_error_str (last_error self)).

(** [raise TimeoutException]: the module neither defines nor imports that
    name, so evaluating it raises [NameError]. *)
Definition raise_TimeoutException : exn :=
  NameError "name 'TimeoutException' is not defined".

(** How one pass through the body of the [while] ends: at the loop test again
    ([Next]), or with the call over ([Stop]: a [return] or a [raise]). *)
Inductive attempt_end :=
| Next (self : Email) (trace : list event)
| Stop (self : Email) (r : result bool) (trace : list event).

Section Pwned.

(** The network: the answer to the [calls]-th request of the call, for a
    url. *)
Variable requests_get : string → nat → http_result.

(** The builtin [float] on text; [None] when it raises [ValueError]. *)
Variable float_of_text : string → option float.

(** [time.sleep]: [None] when the call returns, and the exception when it
    raises, as it does on a negative duration, on nan, and on a duration too
    large for its clock. *)
Variable time_sleep : float → option exn.

(** [float(headers.get('retry-after', self.pwned_sleep))] *)
Definition retry_after (headers : list (string * string)) (pwned_sleep : float)
  : result float :=
  match lower_headers headers !! "retry-after" with
  | Some v =>
      match float_of_text v with
      | Some d => Ok d
      | None => Raise (ValueError ("could not convert string to float: '" ++ v ++ "'"))
      end
  | None => Ok pwned_sleep
  end.

(** [time.sleep(self.pwned_sleep)] and what follows it. The call is
    recorded; an exception of [time.sleep] is not caught and ends the
    property. *)
Definition sleep_then (self : Email) (trace : list event)
    (after : list event → attempt_end) : attempt_end :=
  match time_sleep (pwned_sleep self) with
  | Some e => Stop self (Raise e) (trace ++ [Sleep (pwned_sleep self)])
  | None => after (trace ++ [Sleep (pwned_sleep self)])
  end.

(** Lines 96-133: the body of the loop. *)
Definition attempt (calls : nat) (self : Email) (trace : list event) : attempt_end :=
  let url := ("https://haveibeenpwned.com/api/v2/breachedaccount/" ++ Email_str self)%string in
  let trace := trace ++ [Get url] in
  match requests_get url calls with
  | GetRaises e => Next (set_last_error self (Some e)) trace
  | GetReturns status_code headers =>
      let self := set_last_error self None in
      let '(status, return_value) := pwned_status_codes status_code in
      let self := set_pwned_status self status in
      match return_value with
      | Some b => sleep_then self trace (Stop self (Ok b))
      | None =>
          if String.eqb status "rate limit" then
            match retry_after headers (pwned_sleep self) with
            | Raise e => Stop self (Raise e) trace
            | Ok d =>
                let self := set_pwned_sleep self d in
                if (80000 <? pwned_sleep self)%float
                then Stop self (Raise raise_TimeoutException) trace
                else sleep_then self trace (Next self)
            end
          else sleep_then self trace (Next self)
      end
  end.

(** Lines 94-136: the loop and the [raise] after it. *)
Fixpoint pwned_loop (max_attempts calls : nat) (self : Email) (trace : list event)
  : Email * result bool * list event :=
  match max_attempts with
  | O => (self, Raise (failed_max_retry self), trace)
  | S max_attempts =>
      match attempt calls self trace with
      | Next self trace => pwned_loop max_attempts (S calls) self trace
      | Stop self r trace => (self, r, trace)
      end
  end.

(** [self.pwned]: the object afterwards, the value returned or the
    exception raised, and what was done to the outside. *)
Definition pwned (self : Email) : Email * result bool * list event :=
  pwned_loop 2 0 self [].

End Pwned.

(** ** class Domain: the traversal loop of [__init__] *)

(** [int(f)]: truncation toward zero. On the infinities and on nan [int]
    raises; [0.9 * len(visited)] is none of them. *)
Definition int_of_float (f : float) : Z :=
  match Prim2SF f with
  | S754_finite s m e =>
      let a := if 0 <=? e then Z.shiftl (Z.pos m) e else Z.shiftr (Z.pos m) (- e) in
      if s then - a else a
  | _ => 0
  end.

(** [int(0.9 * len(visited))] *)
Definition threshold (len_visited : Z) : Z :=
  int_of_float (0.9 * PrimFloat.of_uint63 (Uint63.of_Z len_visited))%float.

(** The state of the loop: the two local sets, and the two attributes the
    loop updates. [emails] is a set of [Email] objects; an element is found
    by its text value. *)
Record crawl := mkCrawl {
  to_do_list : gset string;
  visited : gset string;
  emails : gmap string Email;
  error_count : Z
}.

(** What the outside gives for one link. [FetchRaises]: [requests.get]
    raised for the link and again for its https form. Otherwise a response:
    its status code, its Content-Type header if any, its decoded content
    ([None] when [decode] raises), and the [new_link] values of lines 257-284
    that reach line 286, in the order of the anchors (BeautifulSoup,
    [urlparse], [urljoin] and the two calendar patterns decide them). *)
Inductive fetched :=
| FetchRaises
| Fetched (status_code : Z) (content_type : option string)
          (content : option string) (new_links : list string).

(** [self.emails.update(email_list)]: an object equal to one already in the
    set is not added. *)
Definition emails_update (emails : gmap string Email) (email_list : list Email)
  : gmap string Email :=
  foldl (fun m e => match m !! email_addr e with
                    | Some _ => m
                    | None => <[email_addr e := e]> m
                    end) emails email_list.

(** Lines 286-288 *)
Definition add_link (visited to_do_list : gset string) (new_link : string) : gset string :=
  if decide (new_link ∈ visited) then to_do_list else to_do_list ∪ {[new_link]}.

(** Lines 216-220 *)
Definition over_budget (error_count : Z) (visited : gset string) : bool :=
  (3 <? error_count) && (threshold (Z.of_nat (size visited)) <? error_count).

Inductive ctl :=
| Break (st : crawl)
| Continue (st : crawl).

(** Lines 211-288: one pass through the body of the [while], for the link
    that [to_do_list.pop()] picks. *)
Definition loop_body (link_to_do : string) (r : fetched) (st : crawl) : ctl :=
  let to_do_list := to_do_list st ∖ {[link_to_do]} in
  let visited := visited st ∪ {[link_to_do]} in
  if over_budget (error_count st) visited
  then Break (mkCrawl to_do_list visited (emails st) (error_count st))
  else
    match r with
    | FetchRaises => Continue (mkCrawl to_do_list visited (emails st) (error_count st + 1))
    | Fetched status_code content_type content new_links =>
        if negb (status_code =? 200)
        then Continue (mkCrawl to_do_list visited (emails st) (error_count st + 1))
        else if negb (Str.contains (default "pdf" content_type) "text")
        then Continue (mkCrawl to_do_list visited (emails st) (error_count st))
        else
          match content with
          | None => Continue (mkCrawl to_do_list visited (emails st) (error_count st + 1))
          | Some content =>
              let email_list := Email_findall content in
              Continue (mkCrawl (foldl (add_link visited) to_do_list new_links)
                          visited
                          (emails_update (emails st) email_list)
                          (error_count st))
          end
    end.

(** Line 205-206: the state before the first pass. *)
Definition crawl_init (cleanaddress : string) : crawl :=
  mkCrawl {[cleanaddress]} ∅ ∅ 0.

(** The states at the loop test. [pop] takes an arbitrary element, and the
    outside answers as it likes. *)
Inductive reachable (cleanaddress : string) : crawl → Prop :=
| reach_init : reachable cleanaddress (crawl_init cleanaddress)
| reach_pass st link_to_do r st' :
    reachable cleanaddress st →
    link_to_do ∈ to_do_list st →
    loop_body link_to_do r st = Continue st' →
    reachable cleanaddress st'.

(** The states in which the loop is left: the set is empty, or [break]. *)
Inductive loop_exit (cleanaddress : string) : crawl → Prop :=
| exit_empty st :
    reachable cleanaddress st → to_do_list st = ∅ → loop_exit cleanaddress st
| exit_break st link_to_do r st' :
    reachable cleanaddress st →
    link_to_do ∈ to_do_list st →
    loop_body link_to_do r st = Break st' →
    loop_exit cleanaddress st'.

(** Line 290 *)
Definition links_visited (st : crawl) : Z := Z.of_nat (size (visited st)).

(** ** Vocabulary of the statements *)

(** The attributes that [__init__] computes from the text, and the text. *)
Definition same_parsed (a b : Email) : Prop :=
  email_addr a = email_addr b ∧ name a = name b ∧ domain a = domain b
  ∧ _tld a = _tld b ∧ country a = country b.

Definition pwned_url (self : Email) : string :=
  "https://haveibeenpwned.com/api/v2/breachedaccount/" ++ Email_str self.

(** Number of requests in a trace. *)
Definition requests_made (trace : list event) : nat := length (filter is_Get trace).

(** A fragment of the builtin [float], enough for the examples: an
    optional minus sign and decimal digits, of a value below 2^53 (so that
    the conversion is exact). On other text the fragment answers [None]. *)
Fixpoint digits_value (acc : Z) (s : string) : option Z :=
  match s with
  | EmptyString => Some acc
  | String c s' =>
      if (48 <=? Str.code c) && (Str.code c <=? 57)
      then digits_value (10 * acc + (Str.code c - 48)) s'
      else None
  end.

Definition float_of_nat_text (s : string) : option float :=
  match s with
  | EmptyString => None
  | _ =>
      match digits_value 0 s with
      | Some z => if z <? 2 ^ 53 then Some (PrimFloat.of_uint63 (Uint63.of_Z z)) else None
      | None => None
      end
  end.

Definition float_of_digits (s : string) : option float :=
  match s with
  | String "-" s' => PrimFloat.opp <$> float_of_nat_text s'
  | _ => float_of_nat_text s
  end.

(** [time.sleep] as CPython 3.11 has it, where the duration is kept as a
    64-bit count of nanoseconds: nan and negative durations raise
    ValueError, and durations beyond that count (infinity among them) raise
    OverflowError. Below that bound the call returns when the time has
    passed; within reach of the bound the operating system may refuse the
    deadline instead, and the bound and the texts differ between versions.
    The examples use 1.7, 90000, -5 and 1e10 seconds, far from the bound on
    either side. *)
Definition time_sleep_py (secs : float) : option exn :=
  if negb (secs =? secs)%float
  then Some (ValueError "Invalid value NaN (not a number)")
  else if (secs <? 0)%float
  then Some (ValueError "sleep length must be non-negative")
  else if (9223372036.854775 <? secs)%float
  then Some (OverflowError "timestamp too large to convert to C _PyTime_t")
  else None.

(** The state a pass ends in, whichever way it ends. *)
Definition state_of (c : ctl) : crawl :=
  match c with
  | Break st | Continue st => st
  end.

(** A text without the character [x]. *)
Definition nochar (x : ascii) (s : string) : bool :=
  Str.all_chars (fun c => negb (Ascii.eqb c x)) s.

(** Everything the parser needs to know about one tld of the allow-set. *)
Definition tld_ok (t : string) : bool :=
  String.eqb (Str.lower t) t
  && Str.mem (Str.lower t) email_tlds
  && Str.truthy (Some t)
  && negb (String.length t =? 2)%nat
  && negb (String.eqb t "x")
  && negb (Str.mem t skip_types)
  && negb (Str.isnumeric t)
  && nochar "@" t
  && nochar "." t
  && forallb (fun t' => implb (Str.startswith t t') (String.eqb t t')) email_tlds
  && match startswith_tld t with Some t' => String.eqb t' t | None => false end.

(** The test of line 41 on the last label. *)
Definition last_label_ok (domain_list : list string) : bool :=
  negb (String.eqb (List.last domain_list "") "x"
        || Str.mem (List.last domain_list "") skip_types).

(** Lines 44-55 as one function of the label list. *)
Definition parse_labels (domain_list : list string)
  : list string * option string * option string :=
  if negb (forallb Str.isnumeric domain_list) then
    let '(dl1, c) := strip_country domain_list in
    let '(dl2, t) := strip_tld dl1 in
    (dl2, t, c)
  else (domain_list, None, None).

(** The labels [__str__] writes after the [@]. *)
Definition rebuild (r : list string * option string * option string) : list string :=
  let '(dl, t, c) := r in dl ++ option_list t ++ option_list c.

(** *** Inputs of the examples *)

(** An address whose tld label carries trailing characters. *)
Definition addr_comxyz : Email :=
  mkEmail "a@b.comxyz" "a" "b" (Some "com") None 1.7 None None.

Definition addr_com : Email :=
  mkEmail "a@b.com" "a" "b" (Some "com") None 1.7 None None.

(** A network whose first request fails in transport and whose second one
    answers 500. *)
Definition net_error_then_500 (url : string) (calls : nat) : http_result :=
  match calls with
  | O => GetRaises (RequestException "timed out")
  | S _ => GetReturns 500 []
  end.

(** A network that answers 429 with a retry-after of 90000 seconds. *)
Definition net_retry_after_90000 (url : string) (calls : nat) : http_result :=
  GetReturns 429 [("Retry-After", "90000")].

(** A network that answers 429 with a retry-after of -5 seconds. *)
Definition net_retry_after_minus_5 (url : string) (calls : nat) : http_result :=
  GetReturns 429 [("Retry-After", "-5")].

(** A network that answers 429 with a retry-after of 1e10 seconds. *)
Definition net_retry_after_1e10 (url : string) (calls : nat) : http_result :=
  GetReturns 429 [("Retry-After", "10000000000")].

(** A state with four errors, two links visited and one to do. *)
Definition crawl_four_errors : crawl :=
  mkCrawl {[ "http://h/c" ]} {[ "http://h/"; "http://h/a" ]} ∅ 4.

(** *** More of the source, and vocabulary for it *)

(** Number of occurrences of a character. *)
Fixpoint count_char (x : ascii) (s : string) : nat :=
  match s with
  | EmptyString => 0
  | String c s' => (if Ascii.eqb c x then 1 else 0) + count_char x s'
  end.

(** The two messages of a failed unpacking at line 35. *)
Definition not_enough_values : exn :=
  ValueError "not enough values to unpack (expected 2, got 1)".

Definition too_many_values : exn :=
  ValueError "too many values to unpack (expected 2)".

(** The exception of line 42. *)
Definition invalid_domain (domain : string) : exn :=
  TypeError ("Invalid domain '" ++ domain ++ "'").

(** What it means for a text to match a pattern, without reference to the
    matcher. *)
Inductive re_matches : list Re.item → string → Prop :=
| matches_nil : re_matches [] EmptyString
| matches_lit c p m : re_matches p m → re_matches (Re.Lit c :: p) (String c m)
| matches_plus cls p w m :
    w ≠ EmptyString → Str.all_chars cls w = true → re_matches p m →
    re_matches (Re.Plus cls :: p) (w ++ m).

(** [re.split(sep, s)[0]]: the text before the first separator. *)
Definition before_first (sep : ascii) (s : string) : string :=
  hd EmptyString (Str.split sep s).

(** Lines 272-274: fragment, query and [@] suffix are cut off the path that
    [urlparse] returned. *)
Definition clean_path (parsed_url_path : string) : string :=
  before_first "@" (before_first "&" (before_first "#" parsed_url_path)).

(** Lines 275-276: is the link skipped for its file type? *)
Definition skipped_type (parsed_url_path : string) : bool :=
  Str.mem (Str.lower (List.last (Str.split "." parsed_url_path) "")) skip_types.

(** [s.split(sep)] for a separator of several characters: the text is
    read from the left and cut at each occurrence of the separator that
    starts where no earlier occurrence is still being passed ([skip]
    characters of the last one are left). *)
Fixpoint split_str (sep : string) (skip : nat) (s : string) : list string :=
  match s with
  | EmptyString => [EmptyString]
  | String c s' =>
      match skip with
      | S k => split_str sep k s'
      | O =>
          if Str.startswith s sep
          then EmptyString :: split_str sep (Nat.pred (String.length sep)) s'
          else match split_str sep 0 s' with
               | w :: ws => String c w :: ws
               | [] => [String c EmptyString]
               end
      end
  end.




(** The passes made so far, with the link picked and the answer got in
    each, and the state they lead to at the loop test. *)
Inductive run (cleanaddress : string) : list (string * fetched) → crawl → Prop :=
| run_start : run cleanaddress [] (crawl_init cleanaddress)
| run_pass history st link_to_do r st' :
    run cleanaddress history st →
    link_to_do ∈ to_do_list st →
    loop_body link_to_do r st = Continue st' →
    run cleanaddress (history ++ [(link_to_do, r)]) st'.

(** The links a response offers to line 286. *)
Definition offered (r : fetched) : list string :=
  match r with
  | FetchRaises => []
  | Fetched _ _ _ new_links => new_links
  end.

(** Every sleep of a trace lasts [d0] or at most 80000 seconds. *)
Definition sleeps_ok (d0 : float) (trace : list event) : Prop :=
  ∀ d, Sleep d ∈ trace → d = d0 ∨ (80000 <? d)%float = false.

(** A network on which every request fails in transport. *)
Definition net_down (url : string) (calls : nat) : http_result :=
  GetRaises (RequestException (if Nat.eqb calls 0 then "timed out" else "refused")).

(** A network that answers 503 with a header that is not retry-after. *)
Definition net_503 (url : string) (calls : nat) : http_result :=
  GetReturns 503 [("Server", "cloudflare")].

(** A network that answers 200. *)
Definition net_200 (url : string) (calls : nat) : http_result := GetReturns 200 [].

(** ** Facts about text *)

Module StrFacts.
Import Str.

Lemma append_assoc (a b c : string) : ((a ++ b) ++ c = a ++ (b ++ c))%string.
Proof. induction a as [|x a IH]; simpl; [done|]. by f_equal. Qed.

Lemma nochar_app x a b : nochar x (a ++ b) = nochar x a && nochar x b.
Proof.
  induction a as [|c a IH]; simpl; [done|].
  unfold nochar in *. simpl. rewrite IH. by rewrite andb_assoc.
Qed.

Lemma split_not_nil sep s : split sep s ≠ [].
Proof.
  destruct s as [|c s]; simpl; [done|].
  destruct (Ascii.eqb c sep); [done|]. by destruct (split sep s).
Qed.

Lemma split_nochar sep w : nochar sep w = true → split sep w = [w].
Proof.
  induction w as [|c w IH]; simpl; [done|].
  unfold nochar in *. simpl. intros [Hc Hw]%andb_true_iff.
  apply negb_true_iff in Hc. rewrite Hc, (IH Hw). done.
Qed.

Lemma split_app_sep sep w rest :
  nochar sep w = true → split sep (w ++ String sep rest) = w :: split sep rest.
Proof.
  induction w as [|c w IH]; simpl.
  - intros _. by rewrite Ascii.eqb_refl.
  - unfold nochar in *. simpl. intros [Hc Hw]%andb_true_iff.
    apply negb_true_iff in Hc. rewrite Hc, (IH Hw). done.
Qed.

Lemma split_labels sep s : Forall (fun w => nochar sep w = true) (split sep s).
Proof.
  induction s as [|c s IH]; simpl.
  - by repeat constructor.
  - destruct (Ascii.eqb c sep) eqn:E.
    + by constructor.
    + destruct (split sep s) as [|w ws]; [by repeat constructor; unfold nochar; simpl; rewrite E|].
      inversion IH; subst. constructor; [|done].
      unfold nochar in *. simpl. by rewrite E.
Qed.

Lemma join_cons sep w l :
  l ≠ [] → join sep (w :: l) = (w ++ sep ++ join sep l)%string.
Proof. by destruct l. Qed.

Lemma join_split sep s : join (String sep "") (split sep s) = s.
Proof.
  induction s as [|c s IH]; simpl; [done|].
  pose proof (split_not_nil sep s) as Hne.
  destruct (Ascii.eqb c sep) eqn:E.
  - apply Ascii.eqb_eq in E. subst c. rewrite join_cons by done. simpl. by rewrite IH.
  - destruct (split sep s) as [|w ws]; [done|].
    destruct ws as [|w' ws]; simpl in *; by rewrite <- IH.
Qed.

Lemma split_join sep l :
  l ≠ [] → Forall (fun w => nochar sep w = true) l →
  split sep (join (String sep "") l) = l.
Proof.
  induction l as [|w l IH]; [done|]. intros _ Hall.
  inversion Hall as [|? ? Hw Hl]; subst.
  destruct l as [|w' l].
  - simpl. by apply split_nochar.
  - rewrite join_cons by done.
    change (w ++ String sep "" ++ join (String sep "") (w' :: l))%string
      with (w ++ String sep (join (String sep "") (w' :: l)))%string.
    rewrite split_app_sep by done. by rewrite IH.
Qed.

Lemma join_app sep l1 l2 :
  l1 ≠ [] → l2 ≠ [] →
  join sep (l1 ++ l2) = (join sep l1 ++ sep ++ join sep l2)%string.
Proof.
  induction l1 as [|w l1 IH]; [done|]. intros _ H2.
  destruct l1 as [|w' l1].
  - simpl app. by rewrite join_cons.
  - change ((w :: w' :: l1) ++ l2) with (w :: ((w' :: l1) ++ l2)).
    rewrite !join_cons by done. rewrite IH by done.
    by rewrite !append_assoc.
Qed.

(** Joining the already joined head with more labels is joining them all:
    this is what [__str__] does with [self.domain]. *)
Lemma join_join sep l rest :
  l ≠ [] → join sep (join sep l :: rest) = join sep (l ++ rest).
Proof.
  intros Hl. destruct rest as [|r rest].
  - by rewrite app_nil_r.
  - rewrite join_cons by done. by rewrite join_app.
Qed.

Lemma nochar_join x sep l :
  nochar x sep = true → Forall (fun w => nochar x w = true) l →
  nochar x (join sep l) = true.
Proof.
  intros Hsep. induction l as [|w l IH]; [done|].
  intros Hall. inversion Hall; subst.
  destruct l as [|w' l]; [done|].
  rewrite join_cons by done. rewrite !nochar_app.
  rewrite IH by done. by repeat (apply andb_true_iff; split).
Qed.

(** Lower-casing, character by character. *)
Lemma lower_char_idem c : lower_char (lower_char c) = lower_char c.
Proof. by destruct c as [[] [] [] [] [] [] [] []]. Qed.

Lemma lower_char_numeric c : isnumeric_char (lower_char c) = isnumeric_char c.
Proof. by destruct c as [[] [] [] [] [] [] [] []]. Qed.

Lemma lower_char_at c : Ascii.eqb (lower_char c) "@" = Ascii.eqb c "@".
Proof. by destruct c as [[] [] [] [] [] [] [] []]. Qed.

Lemma lower_char_dot c : Ascii.eqb (lower_char c) "." = Ascii.eqb c ".".
Proof. by destruct c as [[] [] [] [] [] [] [] []]. Qed.

Lemma lower_idem s : lower (lower s) = lower s.
Proof. induction s; simpl; [done|]. by rewrite lower_char_idem, IHs. Qed.

Lemma lower_length s : String.length (lower s) = String.length s.
Proof. induction s; simpl; [done|]. by rewrite IHs. Qed.

Lemma lower_isnumeric s : isnumeric (lower s) = isnumeric s.
Proof.
  destruct s as [|c s]; [done|]. unfold isnumeric. simpl.
  rewrite lower_char_numeric. f_equal.
  induction s as [|d s IH]; simpl; [done|]. by rewrite lower_char_numeric, IH.
Qed.

Lemma lower_nochar_at s : nochar "@" (lower s) = nochar "@" s.
Proof.
  unfold nochar. induction s as [|c s IH]; simpl; [done|].
  by rewrite lower_char_at, IH.
Qed.

Lemma lower_nochar_dot s : nochar "." (lower s) = nochar "." s.
Proof.
  unfold nochar. induction s as [|c s IH]; simpl; [done|].
  by rewrite lower_char_dot, IH.
Qed.

Lemma mem_In x l : mem x l = true ↔ In x l.
Proof.
  unfold mem. rewrite existsb_exists. split.
  - intros (y & Hy & E). apply String.eqb_eq in E. by subst.
  - intros H. exists x. split; [done|]. apply String.eqb_refl.
Qed.

End StrFacts.

(** ** Facts about the address parser *)

Module EmailFacts.
Import Str StrFacts.

Lemma email_tlds_ok t : In t email_tlds → tld_ok t = true.
Proof.
  assert (H : forallb tld_ok email_tlds = true) by (vm_compute; reflexivity).
  rewrite forallb_forall in H. apply H.
Qed.

Ltac tld_facts H :=
  let K := fresh "K" in
  pose proof (email_tlds_ok _ H) as K; unfold tld_ok in K;
  repeat (apply andb_true_iff in K; destruct K as [K ?]).

Lemma startswith_tld_in_Some tlds x t :
  startswith_tld_in tlds x = Some t → In t tlds ∧ startswith (lower x) t = true.
Proof.
  induction tlds as [|t' tlds IH]; simpl; [done|].
  destruct (startswith (lower x) t') eqn:E.
  - intros [= <-]. auto.
  - intros H. destruct (IH H). auto.
Qed.

Lemma startswith_tld_in_None tlds x :
  startswith_tld_in tlds x = None ↔ ∀ t, In t tlds → startswith (lower x) t = false.
Proof.
  induction tlds as [|t' tlds IH]; simpl.
  - split; [intros _ ? []|done].
  - destruct (startswith (lower x) t') eqn:E.
    + split; [done|]. intros H. rewrite H in E; [done|auto].
    + rewrite IH. split; [intros H t [<-|?]; auto|auto].
Qed.

(** Two prefixes of one text: one is a prefix of the other. *)
Lemma startswith_comparable x p q :
  startswith x p = true → startswith x q = true →
  startswith p q = true ∨ startswith q p = true.
Proof.
  revert p q. induction x as [|c x IH]; intros [|a p] [|b q]; simpl; auto; try done.
  intros [Ha Hp]%andb_true_iff [Hb Hq]%andb_true_iff.
  apply Ascii.eqb_eq in Ha, Hb. subst a b. rewrite Ascii.eqb_refl. simpl.
  by apply IH.
Qed.

(** At most one tld of the allow-set is a prefix of a given text. *)
Lemma tld_prefix_unique x t1 t2 :
  In t1 email_tlds → In t2 email_tlds →
  startswith x t1 = true → startswith x t2 = true → t1 = t2.
Proof.
  intros H1 H2 P1 P2.
  destruct (startswith_comparable _ _ _ P1 P2) as [P|P].
  - tld_facts H1.
    match goal with H : forallb _ email_tlds = true |- _ =>
      rewrite forallb_forall in H; specialize (H _ H2); rewrite P in H;
      by apply String.eqb_eq in H end.
  - tld_facts H2.
    match goal with H : forallb _ email_tlds = true |- _ =>
      rewrite forallb_forall in H; specialize (H _ H1); rewrite P in H;
      by apply String.eqb_eq in H end.
Qed.

(** [email_tlds] is a Python set, and [startswith_tld] returns the first hit
    in the set's iteration order, which differs from run to run. The answer
    does not depend on that order. *)
Lemma startswith_tld_order_irrelevant tlds x :
  tlds ≡ₚ email_tlds → startswith_tld_in tlds x = startswith_tld x.
Proof.
  intros Hp. unfold startswith_tld.
  destruct (startswith_tld_in tlds x) as [t|] eqn:E1.
  - apply startswith_tld_in_Some in E1 as [Hin Hpre].
    assert (Hin' : In t email_tlds).
    { apply list_elem_of_In. rewrite <- Hp. by apply list_elem_of_In. }
    destruct (startswith_tld_in email_tlds x) as [t'|] eqn:E2.
    + apply startswith_tld_in_Some in E2 as [Hin2 Hpre2].
      f_equal. by eapply tld_prefix_unique.
    + rewrite startswith_tld_in_None in E2. rewrite (E2 _ Hin') in Hpre. done.
  - symmetry. rewrite startswith_tld_in_None in E1 |- *.
    intros t Hin. apply E1. apply list_elem_of_In. rewrite Hp. by apply list_elem_of_In.
Qed.

Lemma startswith_tld_Some x t :
  startswith_tld x = Some t → In t email_tlds ∧ startswith (lower x) t = true.
Proof. apply startswith_tld_in_Some. Qed.

Lemma startswith_tld_self t : In t email_tlds → startswith_tld t = Some t.
Proof.
  intros H. tld_facts H.
  destruct (startswith_tld t) as [t'|]; [|done].
  f_equal. by apply String.eqb_eq.
Qed.

(** The setter accepts what [startswith_tld] returns. *)
Lemma tld_setter_check_tld t :
  In t email_tlds → tld_setter_check (Some t) = Ok (Some t).
Proof.
  intros H. tld_facts H. unfold tld_setter_check.
  match goal with H : mem (lower t) email_tlds = true |- _ => rewrite H end.
  by rewrite andb_false_r.
Qed.

(** *** The label list *)

Lemma Email_init_Ok s e :
  Email_init s = Ok e ↔
  ∃ n d, split "@" s = [n; d]
         ∧ last_label_ok (split "." d) = true
         ∧ e = (let '(dl, t, c) := parse_labels (split "." d) in
                mkEmail s n (join "." dl) t c 1.7 None None).
Proof.
  unfold Email_init.
  change (tld_setter_check None) with (Ok (@None string)).
  destruct (split "@" s) as [|n [|d [|? ?]]]; cbv beta iota delta [bind];
    try (split; [done|by intros (? & ? & [=] & _)]).
  transitivity (last_label_ok (split "." d) = true
                ∧ e = (let '(dl, t, c) := parse_labels (split "." d) in
                       mkEmail s n (join "." dl) t c 1.7 None None)).
  2: { split; [intros [? ?]; by exists n, d|by intros (? & ? & [= <- <-] & ? & ?)]. }
  unfold last_label_ok, parse_labels.
  destruct (_ || _); cbv beta iota delta [negb].
  { split; [done|by intros [[=] _]]. }
  destruct (forallb isnumeric (split "." d)); cbv beta iota.
  - split; [by intros [= <-]|by intros [_ ->]].
  - destruct (strip_country (split "." d)) as [dl1 c].
    destruct (strip_tld dl1) as [dl2 t] eqn:Et.
    assert (Ht : match t with
                 | Some t' => tld_setter_check (Some t')
                 | None => Ok None
                 end = Ok t).
    { destruct t as [t'|]; [|done]. apply tld_setter_check_tld.
      unfold strip_tld in Et. destruct (1 <? length dl1)%nat; [|done].
      destruct (startswith_tld _) eqn:E; [|done].
      injection Et as _ ->. by apply startswith_tld_Some in E as [? _]. }
    rewrite Ht. split; [by intros [= <-]|by intros [_ ->]].
Qed.

Lemma length_eqb_true x y : String.eqb x y = true → String.length x = String.length y.
Proof. intros H%String.eqb_eq. by subst. Qed.

(** A label of two characters is neither the lone x nor a skipped type. *)
Lemma two_chars_ok c dl :
  String.length c = 2%nat → last_label_ok (dl ++ [c]) = true.
Proof.
  intros Hc. unfold last_label_ok. rewrite last_last.
  apply negb_true_iff, orb_false_iff. split.
  - destruct (String.eqb c "x") eqn:E; [|done].
    apply length_eqb_true in E. simpl in E. lia.
  - destruct (mem c skip_types) eqn:E; [|done].
    apply mem_In in E. simpl in E.
    repeat (destruct E as [<-|E]; [simpl in Hc; lia|]). done.
Qed.

Lemma tld_label_ok t dl : In t email_tlds → last_label_ok (dl ++ [t]) = true.
Proof.
  intros H. tld_facts H. unfold last_label_ok. rewrite last_last.
  apply negb_true_iff, orb_false_iff. split; by apply negb_true_iff.
Qed.

Lemma strip_country_app dl c :
  dl ≠ [] → String.length c = 2%nat →
  strip_country (dl ++ [c]) = (dl, Some (lower c)).
Proof.
  intros Hdl Hc. unfold strip_country.
  rewrite last_last, removelast_last, Hc, length_app. simpl.
  destruct dl; [done|]. simpl.
  by replace (1 <? S (length dl + 1))%nat with true by (symmetry; apply Nat.ltb_lt; lia).
Qed.

Lemma strip_country_not2 dl :
  String.length (List.last dl "") ≠ 2%nat → strip_country dl = (dl, None).
Proof.
  intros H. unfold strip_country.
  apply Nat.eqb_neq in H. rewrite H. by rewrite andb_false_r.
Qed.

Lemma strip_tld_app dl t :
  dl ≠ [] → In t email_tlds → strip_tld (dl ++ [t]) = (dl, Some t).
Proof.
  intros Hdl Ht. unfold strip_tld.
  rewrite last_last, removelast_last, length_app. simpl.
  destruct dl; [done|]. simpl.
  replace (1 <? S (length dl + 1))%nat with true by (symmetry; apply Nat.ltb_lt; lia).
  by rewrite startswith_tld_self.
Qed.

Lemma forallb_isnumeric_tld dl t rest :
  In t email_tlds → forallb isnumeric (dl ++ t :: rest) = false.
Proof.
  intros H. tld_facts H. rewrite forallb_app. simpl.
  match goal with H : negb (isnumeric t) = true |- _ => apply negb_true_iff in H; rewrite H end.
  by rewrite andb_false_r.
Qed.

(** What [strip_country] and [strip_tld] return, by cases. *)
Lemma strip_country_cases dl :
  (strip_country dl = (dl, None)
   ∧ ((1 <? length dl)%nat && (String.length (List.last dl "") =? 2)%nat) = false)
  ∨ (∃ dl1 c, dl = dl1 ++ [c] ∧ dl1 ≠ [] ∧ String.length c = 2%nat
              ∧ strip_country dl = (dl1, Some (lower c))).
Proof.
  unfold strip_country.
  destruct ((1 <? length dl)%nat && _) eqn:E; [right|by left].
  apply andb_true_iff in E as [E1 E2].
  apply Nat.ltb_lt in E1. apply Nat.eqb_eq in E2.
  exists (removelast dl), (List.last dl ""). split_and!; try done.
  - apply app_removelast_last. intros ->. simpl in E1. lia.
  - destruct dl as [|? [|? ?]]; simpl in *; try lia; done.
Qed.

Lemma strip_tld_cases dl :
  (strip_tld dl = (dl, None)
   ∧ ((1 <? length dl)%nat = false ∨ startswith_tld (List.last dl "") = None))
  ∨ (∃ dl2 t0 t, dl = dl2 ++ [t0] ∧ dl2 ≠ [] ∧ In t email_tlds
                 ∧ startswith (lower t0) t = true
                 ∧ strip_tld dl = (dl2, Some t)).
Proof.
  unfold strip_tld.
  destruct (1 <? length dl)%nat eqn:E1; [|left; auto].
  destruct (startswith_tld (List.last dl "")) as [t|] eqn:E2; [right|left; auto].
  apply Nat.ltb_lt in E1. apply startswith_tld_Some in E2 as [Hin Hpre].
  exists (removelast dl), (List.last dl ""), t. split_and!; try done.
  - apply app_removelast_last. intros ->. simpl in E1. lia.
  - destruct dl as [|? [|? ?]]; simpl in *; try lia; done.
Qed.

(** Parsing the rebuilt label list gives the same three results: the
    heart of the round trip. *)
Lemma parse_labels_stable dl :
  last_label_ok dl = true →
  last_label_ok (rebuild (parse_labels dl)) = true
  ∧ parse_labels (rebuild (parse_labels dl)) = parse_labels dl.
Proof.
  intros Hok. unfold parse_labels at 1 3 4.
  destruct (forallb isnumeric dl) eqn:Hnum; simpl.
  { rewrite app_nil_r. split; [done|]. unfold parse_labels. by rewrite Hnum. }
  destruct (strip_country_cases dl) as [[Ec Hc]|(dl1 & c & -> & Hdl1 & Hlen & Ec)];
    rewrite Ec.
  - destruct (strip_tld_cases dl) as [[Et Ht]|(dl2 & t0 & t & -> & Hdl2 & Hin & Hpre & Et)];
      rewrite Et; simpl.
    + rewrite app_nil_r. split; [done|].
      unfold parse_labels. by rewrite Hnum, Ec, Et.
    + split; [by apply tld_label_ok|].
      unfold parse_labels. rewrite forallb_isnumeric_tld by done. simpl.
      rewrite strip_country_not2, strip_tld_app; try done.
      rewrite last_last. tld_facts Hin.
      match goal with H : negb (_ =? 2)%nat = true |- _ =>
        apply negb_true_iff, Nat.eqb_neq in H; exact H end.
  - destruct (strip_tld_cases dl1) as [[Et Ht]|(dl2 & t0 & t & -> & Hdl2 & Hin & Hpre & Et)];
      rewrite Et; simpl.
    + split; [apply two_chars_ok; by rewrite lower_length|].
      unfold parse_labels.
      assert (Hnum' : forallb isnumeric (dl1 ++ [lower c]) = false).
      { rewrite forallb_app in Hnum |- *. simpl in *. by rewrite lower_isnumeric. }
      rewrite Hnum'. simpl.
      rewrite strip_country_app, Et; [|done|by rewrite lower_length].
      by rewrite lower_idem.
    + split.
      { change (dl2 ++ [t; lower c]) with (dl2 ++ [t] ++ [lower c]).
        rewrite (app_assoc dl2 [t] [lower c]). apply two_chars_ok. by rewrite lower_length. }
      unfold parse_labels.
      rewrite forallb_isnumeric_tld by done. simpl.
      change (dl2 ++ [t; lower c]) with (dl2 ++ [t] ++ [lower c]).
      rewrite (app_assoc dl2 [t] [lower c]).
      rewrite strip_country_app; [|by destruct dl2|by rewrite lower_length].
      rewrite strip_tld_app by done. by rewrite lower_idem.
Qed.

(** The shape of what [parse_labels] returns. *)
Lemma parse_labels_shape dl L t c :
  parse_labels dl = (L, t, c) → dl ≠ [] →
  L ≠ []
  ∧ (∀ t', t = Some t' → In t' email_tlds)
  ∧ (∀ c', c = Some c' → String.length c' = 2%nat)
  ∧ (∀ P : string → Prop,
       (∀ w, P w → P (lower w)) → (∀ t', In t' email_tlds → P t') →
       Forall P dl → Forall P (rebuild (L, t, c))).
Proof.
  unfold parse_labels. intros H Hne.
  destruct (forallb isnumeric dl); simpl in H.
  { injection H as <- <- <-. split_and!; try done.
    intros P _ _ HP. simpl. by rewrite app_nil_r. }
  destruct (strip_country_cases dl) as [[Ec Hc]|(dl1 & c0 & -> & Hdl1 & Hlen & Ec)];
    rewrite Ec in H.
  - destruct (strip_tld_cases dl) as [[Et Ht]|(dl2 & t0 & t1 & -> & Hdl2 & Hin & Hpre & Et)];
      rewrite Et in H; injection H as <- <- <-.
    + split_and!; try done. intros P _ _ HP. simpl. by rewrite app_nil_r.
    + split_and!; try done; [by intros ? [= <-]|].
      intros P _ Ht HP. simpl.
      apply Forall_app in HP as [HP _]. apply Forall_app. split; [done|].
      constructor; [by apply Ht|constructor].
  - destruct (strip_tld_cases dl1) as [[Et Ht]|(dl2 & t0 & t1 & -> & Hdl2 & Hin & Hpre & Et)];
      rewrite Et in H; injection H as <- <- <-.
    + split_and!; try done; [intros ? [= <-]; by rewrite lower_length|].
      intros P Hl _ HP. simpl.
      apply Forall_app in HP as [HP1 HP2]. apply Forall_app. split; [done|].
      inversion HP2; subst. constructor; [by apply Hl|constructor].
    + split_and!; try done;
        [by intros ? [= <-]|intros ? [= <-]; by rewrite lower_length|].
      intros P Hl Ht HP. simpl.
      apply Forall_app in HP as [HP1 HP2]. apply Forall_app in HP1 as [HP1 _].
      inversion HP2; subst.
      apply Forall_app. split; [done|]. repeat constructor; auto.
Qed.

Lemma split_keeps_nochar x sep s :
  nochar x s = true → Forall (fun w => nochar x w = true) (split sep s).
Proof.
  induction s as [|c s IH]; simpl.
  - by repeat constructor.
  - unfold nochar at 1. simpl. intros [Hc Hs]%andb_true_iff.
    specialize (IH Hs).
    destruct (Ascii.eqb c sep).
    + by constructor.
    + destruct (split sep s) as [|w ws]; inversion IH; subst;
        constructor; try done; unfold nochar in *; simpl; by rewrite Hc.
Qed.

Lemma truthy_length2 c : String.length c = 2%nat → truthy (Some c) = true.
Proof. by destruct c. Qed.

Lemma truthy_tld t : In t email_tlds → truthy (Some t) = true.
Proof. intros H. by tld_facts H. Qed.

(** [__str__] on a freshly parsed address: the local part, the [@], and the
    rebuilt labels joined by dots. *)
Lemma Email_str_parsed s n L t c :
  L ≠ [] →
  (∀ t', t = Some t' → In t' email_tlds) →
  (∀ c', c = Some c' → String.length c' = 2%nat) →
  Email_str (mkEmail s n (join "." L) t c 1.7 None None)
  = (n ++ "@" ++ join "." (rebuild (L, t, c)))%string.
Proof.
  intros HL Ht Hc. unfold Email_str, tld. cbn [name domain _tld country].
  f_equal. f_equal. unfold rebuild.
  rewrite <- join_join by done.
  destruct t as [t'|], c as [c'|]; cbn [option_list];
    rewrite ?(truthy_tld t'), ?(truthy_length2 c') by auto; done.
Qed.

(** Round trip of the parsed attributes: the reconstructed text is accepted
    and yields the same [name], [domain], [tld] and [country]; only the text
    the new object keeps as its own value is the reconstructed one. *)
Lemma Email_init_str s e :
  Email_init s = Ok e →
  Email_init (Email_str e)
  = Ok (mkEmail (Email_str e) (name e) (domain e) (_tld e) (country e) 1.7 None None).
Proof.
  intros (n & d & Hs & Hok & ->)%Email_init_Ok.
  destruct (parse_labels (split "." d)) as [[L t] c] eqn:Hp.
  pose proof (split_not_nil "." d) as Hne.
  destruct (parse_labels_shape _ _ _ _ Hp Hne) as (HL & Ht & Hc & HP).
  pose proof (parse_labels_stable _ Hok) as [Hok' Hst]. rewrite Hp in Hok', Hst.
  pose proof (split_labels "@" s) as Hat. rewrite Hs in Hat.
  inversion Hat as [|? ? Hn Hat']; subst. inversion Hat' as [|? ? Hd _]; subst.
  assert (Hdots : Forall (fun w => nochar "." w = true) (rebuild (L, t, c))).
  { apply HP; [intros w; by rewrite lower_nochar_dot| |apply split_labels].
    intros t' Hin. by tld_facts Hin. }
  assert (Hats : Forall (fun w => nochar "@" w = true) (rebuild (L, t, c))).
  { apply HP; [intros w; by rewrite lower_nochar_at| |by apply split_keeps_nochar].
    intros t' Hin. by tld_facts Hin. }
  assert (Hne' : rebuild (L, t, c) ≠ []).
  { simpl. by destruct L. }
  cbn [name domain _tld country].
  rewrite Email_str_parsed by done.
  apply Email_init_Ok.
  exists n, (join "." (rebuild (L, t, c))). split_and!.
  - change (n ++ "@" ++ join "." (rebuild (L, t, c)))%string
      with (n ++ String "@" (join "." (rebuild (L, t, c))))%string.
    rewrite split_app_sep by done.
    rewrite split_nochar; [done|]. by apply nochar_join.
  - by rewrite split_join.
  - rewrite split_join by done. by rewrite Hst.
Qed.

End EmailFacts.

(** ** Facts about the breach check *)

(** The lowered dictionary answers for a key when some header name
    lower-cases to it, and then with the value of such a header. *)
Lemma lower_headers_Some headers key v :
  lower_headers headers !! key = Some v →
  ∃ k, (k, v) ∈ headers ∧ Str.lower k = key.
Proof.
  unfold lower_headers. induction headers as [|[k' v'] hs IH] using rev_ind.
  - simpl. by rewrite lookup_empty.
  - rewrite foldl_snoc. cbn [fst snd]. rewrite lookup_insert.
    case_decide as E.
    + intros [= ->]. exists k'. split; [set_solver|done].
    + intros (k & Hin & Hk)%IH. exists k. split; [set_solver|done].
Qed.

Lemma lower_headers_is_Some headers k v :
  (k, v) ∈ headers → is_Some (lower_headers headers !! Str.lower k).
Proof.
  unfold lower_headers. induction headers as [|[k' v'] hs IH] using rev_ind.
  - by intros ?%elem_of_nil.
  - rewrite foldl_snoc. cbn [fst snd]. rewrite lookup_insert.
    intros Hin. case_decide as E; [done|].
    apply IH. apply elem_of_app in Hin as [Hin|Hin]; [done|].
    apply list_elem_of_singleton in Hin. congruence.
Qed.

Lemma retry_after_header (float_of_text : string → option float) headers k v sleep :
  (k, v) ∈ headers → Str.lower k = "retry-after" →
  (∀ k' v', (k', v') ∈ headers → Str.lower k' = "retry-after" → v' = v) →
  retry_after float_of_text headers sleep
  = match float_of_text v with
    | Some d => Ok d
    | None => Raise (ValueError ("could not convert string to float: '" ++ v ++ "'"))
    end.
Proof.
  intros Hin Hk Huniq. unfold retry_after.
  destruct (lower_headers_is_Some _ _ _ Hin) as [v' Hv']. rewrite Hk in Hv'.
  rewrite Hv'. apply lower_headers_Some in Hv' as (k' & Hin' & Hk').
  by rewrite (Huniq _ _ Hin' Hk').
Qed.

Section PwnedFacts.

Variable requests_get : string → nat → http_result.
Variable float_of_text : string → option float.
Variable time_sleep : float → option exn.

Abbreviation attempt := (attempt requests_get float_of_text time_sleep).
Abbreviation pwned_loop := (pwned_loop requests_get float_of_text time_sleep).
Abbreviation pwned := (pwned requests_get float_of_text time_sleep).
Abbreviation retry_after := (retry_after float_of_text).

#[local] Instance same_parsed_equiv : Equivalence same_parsed.
Proof.
  unfold same_parsed. split.
  - by intros ?.
  - intros ? ? (? & ? & ? & ? & ?). by split_and!.
  - intros ? ? ? (? & ? & ? & ? & ?) (? & ? & ? & ? & ?). split_and!; congruence.
Qed.

Lemma same_parsed_str a b : same_parsed a b → Email_str a = Email_str b.
Proof.
  intros (_ & Hn & Hd & Ht & Hc). unfold Email_str, tld. by rewrite Hn, Hd, Ht, Hc.
Qed.

(** One pass changes none of the parsed attributes. *)
Lemma attempt_frame calls self trace :
  match attempt calls self trace with
  | Next self' _ | Stop self' _ _ => same_parsed self self'
  end.
Proof.
  unfold attempt, sleep_then.
  destruct (requests_get _ calls) as [e|status_code headers]; [done|].
  destruct (pwned_status_codes status_code) as [status [b|]];
    [by destruct (time_sleep _)|].
  destruct (String.eqb status "rate limit"); [|by destruct (time_sleep _)].
  destruct (retry_after _ _) as [d|e]; [|done].
  destruct (80000 <? _)%float; [done|by destruct (time_sleep _)].
Qed.

Lemma pwned_loop_frame max_attempts calls self trace :
  same_parsed self (pwned_loop max_attempts calls self trace).1.1.
Proof.
  revert calls self trace.
  induction max_attempts as [|k IH]; intros calls self trace; simpl; [done|].
  pose proof (attempt_frame calls self trace) as H.
  destruct (attempt calls self trace) as [s t|s r t]; simpl; [|done].
  by etrans.
Qed.

(** One pass makes one request, and adds it to the trace. *)
Lemma attempt_requests calls self trace :
  match attempt calls self trace with
  | Next _ trace' | Stop _ _ trace' => requests_made trace' = S (requests_made trace)
  end.
Proof.
  assert (Hg : ∀ url, requests_made (trace ++ [Get url]) = S (requests_made trace)).
  { intros url. unfold requests_made. rewrite filter_app, length_app. simpl. lia. }
  assert (Hs : ∀ t d, requests_made (t ++ [Sleep d]) = requests_made t).
  { intros t d. unfold requests_made. rewrite filter_app, length_app. simpl. lia. }
  unfold attempt, sleep_then.
  destruct (requests_get _ calls) as [e|status_code headers]; [done|].
  destruct (pwned_status_codes status_code) as [status [b|]];
    [by destruct (time_sleep _); rewrite Hs|].
  destruct (String.eqb status "rate limit");
    [|by destruct (time_sleep _); rewrite Hs].
  destruct (retry_after _ _) as [d|e]; [|done].
  destruct (80000 <? _)%float; [done|by destruct (time_sleep _); rewrite Hs].
Qed.

Lemma pwned_loop_requests max_attempts calls self trace :
  (requests_made (pwned_loop max_attempts calls self trace).2
   ≤ requests_made trace + max_attempts)%nat.
Proof.
  revert calls self trace.
  induction max_attempts as [|k IH]; intros calls self trace; simpl; [lia|].
  pose proof (attempt_requests calls self trace) as H.
  destruct (attempt calls self trace) as [s t|s r t]; simpl; [|lia].
  specialize (IH (S calls) s t). lia.
Qed.

(** The answer to a rate-limited response (429 or 503) whose retry-after
    value [float] accepts: above 80000 the [raise] of line 130, and
    otherwise [time.sleep] of the new duration, which ends the call when it
    raises and the pass when it returns. *)
Lemma attempt_rate_limited calls self trace status_code headers d :
  requests_get (pwned_url self) calls = GetReturns status_code headers →
  status_code = 429 ∨ status_code = 503 →
  retry_after headers (pwned_sleep self) = Ok d →
  let self' := mkEmail (email_addr self) (name self) (domain self) (_tld self)
                 (country self) d (Some "rate limit") None in
  attempt calls self trace
  = if (80000 <? d)%float
    then Stop self' (Raise raise_TimeoutException) (trace ++ [Get (pwned_url self)])
    else match time_sleep d with
         | Some e => Stop self' (Raise e) ((trace ++ [Get (pwned_url self)]) ++ [Sleep d])
         | None => Next self' ((trace ++ [Get (pwned_url self)]) ++ [Sleep d])
         end.
Proof.
  intros Hget Hcode Hra. unfold attempt, sleep_then. fold (pwned_url self). rewrite Hget.
  assert (pwned_status_codes status_code = ("rate limit", None)) as ->.
  { by destruct Hcode as [-> | ->]. }
  cbn [set_pwned_status set_last_error pwned_sleep]. rewrite String.eqb_refl, Hra.
  cbn [set_pwned_sleep pwned_sleep email_addr name domain _tld country
         pwned_status last_error].
  done.
Qed.

End PwnedFacts.

(** ** Facts about the traversal loop *)

Module CrawlFacts.

Lemma add_link_disjoint (V T : gset string) l : V ## T → V ## add_link V T l.
Proof. unfold add_link. case_decide; set_solver. Qed.

Lemma add_link_elem (V T : gset string) l x :
  x ∈ add_link V T l ↔ x ∈ T ∨ (x = l ∧ l ∉ V).
Proof. unfold add_link. case_decide; set_solver. Qed.

Lemma foldl_add_link_elem (V T : gset string) ls x :
  x ∈ foldl (add_link V) T ls ↔ x ∈ T ∨ (x ∈ ls ∧ x ∉ V).
Proof.
  revert T. induction ls as [|l ls IH]; intros T; simpl.
  - set_solver.
  - rewrite IH, add_link_elem. set_solver.
Qed.

Lemma foldl_add_link_disjoint (V T : gset string) ls :
  V ## T → V ## foldl (add_link V) T ls.
Proof.
  intros H x Hx Hx'. apply foldl_add_link_elem in Hx'. set_solver.
Qed.

(** Every pass ends in a state with the picked link visited, and with a
    to-do set made of the old one without the link and of new links that
    are not visited. *)
Lemma loop_body_sets link r st :
  ∃ new_links,
    visited (state_of (loop_body link r st)) = visited st ∪ {[link]}
    ∧ to_do_list (state_of (loop_body link r st))
      = foldl (add_link (visited st ∪ {[link]})) (to_do_list st ∖ {[link]}) new_links.
Proof.
  unfold loop_body.
  destruct (over_budget _ _); [by exists []|].
  destruct r as [|status_code content_type content new_links]; [by exists []|].
  destruct (negb (status_code =? 200)); [by exists []|].
  destruct (negb (Str.contains _ _)); [by exists []|].
  destruct content as [content|]; [by exists new_links|by exists []].
Qed.

Lemma loop_body_disjoint link r st :
  visited st ## to_do_list st →
  visited (state_of (loop_body link r st)) ## to_do_list (state_of (loop_body link r st)).
Proof.
  intros H. destruct (loop_body_sets link r st) as (ls & -> & ->).
  apply foldl_add_link_disjoint. set_solver.
Qed.

Lemma reachable_disjoint cleanaddress st :
  reachable cleanaddress st → visited st ## to_do_list st.
Proof.
  induction 1 as [|st link r st' _ IH _ Hbody].
  - simpl. set_solver.
  - pose proof (loop_body_disjoint link r st IH) as H. by rewrite Hbody in H.
Qed.

Lemma over_budget_true n (V : gset string) :
  over_budget n V = true ↔ 3 < n ∧ threshold (Z.of_nat (size V)) < n.
Proof. unfold over_budget. rewrite andb_true_iff, !Z.ltb_lt. done. Qed.

Lemma loop_body_Break link r st st' :
  loop_body link r st = Break st' ↔
  over_budget (error_count st) (visited st ∪ {[link]}) = true
  ∧ st' = mkCrawl (to_do_list st ∖ {[link]}) (visited st ∪ {[link]})
            (emails st) (error_count st).
Proof.
  unfold loop_body. destruct (over_budget _ _).
  - split; [by intros [= <-]|by intros [_ ->]].
  - split; [|by intros [[=] _]].
    destruct r as [|status_code content_type content new_links]; [done|].
    destruct (negb (status_code =? 200)); [done|].
    destruct (negb (Str.contains _ _)); [done|].
    by destruct content.
Qed.

(** [int(0.9 * n)] is the floor of nine tenths of [n], checked for every
    set size below 10000. *)
Lemma threshold_floor n : 0 ≤ n < 10000 → threshold n = 9 * n / 10.
Proof.
  intros Hn.
  assert (H : forallb (fun k => threshold k =? 9 * k / 10) (seqZ 0 10000) = true)
    by (vm_compute; reflexivity).
  rewrite forallb_forall in H. apply Z.eqb_eq, H.
  apply list_elem_of_In, elem_of_seqZ. lia.
Qed.

End CrawlFacts.

(** ** Facts about the extractor *)

Module FindallFacts.
Import EmailFacts.

Lemma Email_init_addr s e : Email_init s = Ok e → email_addr e = s.
Proof.
  intros (n & d & _ & _ & ->)%Email_init_Ok.
  by destruct (parse_labels _) as [[? ?] ?].
Qed.

Lemma try_Email_Some item e : try_Email item = Some e ↔ Email_init item = Ok e.
Proof.
  unfold try_Email. destruct (Email_init item); split; congruence.
Qed.

(** The texts of the objects built from a list of matches are a sublist of
    the matches. *)
Lemma addr_omap_sublist (l : list string) :
  sublist (email_addr <$> omap try_Email l) l.
Proof.
  induction l as [|item l IH]; simpl; [constructor|].
  destruct (try_Email item) as [e|] eqn:E; simpl.
  - apply try_Email_Some, Email_init_addr in E. rewrite E. by constructor.
  - by constructor.
Qed.

Lemma findall_elem text e :
  e ∈ Email_findall text ↔
  ∃ item, item ∈ Re.findall email_pat text ∧ Email_init item = Ok e.
Proof.
  unfold Email_findall. rewrite list_elem_of_omap.
  setoid_rewrite elem_of_elements. setoid_rewrite elem_of_list_to_set.
  by setoid_rewrite try_Email_Some.
Qed.

Lemma findall_NoDup text : NoDup (email_addr <$> Email_findall text).
Proof.
  unfold Email_findall.
  eapply sublist_NoDup; [|apply addr_omap_sublist]. apply NoDup_elements.
Qed.

Lemma findall_length text :
  (length (Email_findall text)
   ≤ size (list_to_set (Re.findall email_pat text) : gset string))%nat.
Proof.
  unfold Email_findall.
  rewrite <- (length_fmap email_addr).
  etrans; [apply sublist_length, addr_omap_sublist|]. done.
Qed.

End FindallFacts.

(** ** The address model: round trip, tld validation *)

Section AddressClaims.
Import Str StrFacts EmailFacts FindallFacts.

(** C1, as stated, fails: a@b.comxyz is accepted, its string form is
    a@b.com, and the object parsed from that is not equal to the original
    one, since [==] on the str subclass compares the raw texts. *)
Lemma C1_reparse_not_equal :
  Email_init "a@b.comxyz" = Ok addr_comxyz
  ∧ Email_str addr_comxyz = "a@b.com"
  ∧ Email_init (Email_str addr_comxyz) = Ok addr_com
  ∧ Email_eq addr_com addr_comxyz = false
  ∧ addr_com ≠ addr_comxyz.
Proof.
  split_and!; try (vm_compute; reflexivity). intros [=].
Qed.

(** C1, amended: for every text of code points 0..255 (ASCII and Latin-1,
    the text of this model) that the constructor accepts, the string form
    of the result is accepted too, and parsing it gives the same local part,
    domain, top-level domain and country, and the same string form; the new
    object's own text is that string form, so the two objects are equal
    exactly when the original text was already in that form. The statement
    does not reach text beyond that range, where lower-casing the country
    can change its length. *)
Theorem C1_reparse_same_parts (s : string) (e : Email) :
  Email_init s = Ok e →
  ∃ e', Email_init (Email_str e) = Ok e'
        ∧ name e' = name e
        ∧ domain e' = domain e
        ∧ tld e' = tld e
        ∧ country e' = country e
        ∧ Email_str e' = Email_str e
        ∧ email_addr e' = Email_str e
        ∧ (Email_eq e' e = true ↔ Email_str e = s).
Proof.
  intros H. pose proof (Email_init_str _ _ H) as H'.
  eexists. split; [exact H'|]. cbn [name domain _tld country tld email_addr].
  split_and!; try done.
  unfold Email_eq. cbn [email_addr]. rewrite (Email_init_addr _ _ H).
  apply String.eqb_eq.
Qed.

Lemma C1_reparse_same_parts_witness :
  ∃ e', Email_init (Email_str addr_comxyz) = Ok e'
        ∧ name e' = name addr_comxyz
        ∧ domain e' = domain addr_comxyz
        ∧ tld e' = tld addr_comxyz
        ∧ country e' = country addr_comxyz
        ∧ Email_str e' = Email_str addr_comxyz
        ∧ email_addr e' = Email_str addr_comxyz
        ∧ (Email_eq e' addr_comxyz = true ↔ Email_str addr_comxyz = "a@b.comxyz").
Proof. apply (C1_reparse_same_parts "a@b.comxyz" addr_comxyz). reflexivity. Defined.

(** C3, as stated, fails: assigning COM to the tld of a parsed address is
    accepted, and the attribute then holds COM, which is neither lower-cased
    nor an element of the allow-set. *)
Lemma C3_assign_upper_case_kept :
  set_tld addr_com (Some "COM")
  = Ok (mkEmail "a@b.com" "a" "b" (Some "COM") None 1.7 None None)
  ∧ lower "COM" ≠ "COM"
  ∧ ¬ In "COM" email_tlds.
Proof.
  split_and!; [vm_compute; reflexivity|by vm_compute|].
  simpl. intros H. repeat (destruct H as [[=]|H]). done.
Qed.

(** C3, amended: the tld of every parsed address, if present, is
    lower-cased and in the allow-set. A direct assignment of a non-empty
    value is accepted exactly when the lower-casing of the value is in the
    allow-set; the value is then stored as given and nothing else changes.
    Otherwise the assignment raises the TypeError for an invalid top level
    domain, and there is no new state. *)
Theorem C3_tld_validation :
  (∀ s e t, Email_init s = Ok e → tld e = Some t → lower t = t ∧ In t email_tlds)
  ∧ (∀ self v self',
       set_tld self (Some v) = Ok self' →
       self' = mkEmail (email_addr self) (name self) (domain self) (Some v) (country self)
                 (pwned_sleep self) (pwned_status self) (last_error self)
       ∧ (v = "" ∨ In (lower v) email_tlds))
  ∧ (∀ self v,
       In (lower v) email_tlds →
       set_tld self (Some v)
       = Ok (mkEmail (email_addr self) (name self) (domain self) (Some v) (country self)
               (pwned_sleep self) (pwned_status self) (last_error self)))
  ∧ (∀ self v,
       v ≠ "" → ¬ In (lower v) email_tlds →
       set_tld self (Some v)
       = Raise (TypeError ("Invalid top level domain '" ++ lower v ++ "'"))).
Proof.
  split_and!.
  - intros s e t (n & d & _ & _ & ->)%Email_init_Ok.
    destruct (parse_labels (split "." d)) as [[L t'] c] eqn:Hp.
    unfold tld. cbn [_tld]. intros ->.
    destruct (parse_labels_shape _ _ _ _ Hp (split_not_nil _ _)) as (_ & Ht & _).
    specialize (Ht _ eq_refl). split; [|done].
    tld_facts Ht. by apply String.eqb_eq.
  - intros self v self'. unfold set_tld, tld_setter_check.
    destruct v as [|a v]; [intros [= <-]; auto|]. cbn [truthy andb].
    destruct (mem _ email_tlds) eqn:E; cbn [negb bind]; [|done].
    intros [= <-]. split; [done|]. right. by apply mem_In.
  - intros self v Hin. unfold set_tld, tld_setter_check.
    apply mem_In in Hin. rewrite Hin. by rewrite andb_false_r.
  - intros self v Hv Hin. unfold set_tld, tld_setter_check.
    destruct v as [|a v]; [done|]. cbn [truthy andb].
    destruct (mem _ email_tlds) eqn:E; [by apply mem_In in E|done].
Qed.

Lemma C3_tld_validation_witness :
  lower "com" = "com" ∧ In "com" email_tlds.
Proof.
  apply (proj1 C3_tld_validation "a@b.com" addr_com "com"); reflexivity.
Defined.

(** C7: on every text the extractor returns a list and raises nothing. The
    list holds exactly the objects built from the pattern matches that the
    constructor accepts; a match occurring several times gives one object
    (the texts of the objects are pairwise different); a match the
    constructor rejects leaves no object behind. *)
Theorem C7_findall_unique_parsed_matches (text : string) :
  (∀ e, e ∈ Email_findall text ↔
        ∃ item, item ∈ Re.findall email_pat text ∧ Email_init item = Ok e)
  ∧ NoDup (email_addr <$> Email_findall text)
  ∧ (∀ item err, Email_init item = Raise err →
       ∀ e, e ∈ Email_findall text → email_addr e ≠ item)
  ∧ (length (Email_findall text)
     ≤ size (list_to_set (Re.findall email_pat text) : gset string))%nat.
Proof.
  split_and!.
  - apply findall_elem.
  - apply findall_NoDup.
  - intros item err Herr e (item' & _ & He)%findall_elem <-.
    apply Email_init_addr in He as Ha. rewrite Ha in Herr. congruence.
  - apply findall_length.
Qed.

Lemma C7_findall_unique_parsed_matches_witness :
  Re.findall email_pat "a@b.com, x@y.pdf or a@b.com" = ["a@b.com"; "x@y.pdf"; "a@b.com"]
  ∧ Email_findall "a@b.com, x@y.pdf or a@b.com" = [addr_com]
  ∧ ∀ e, e ∈ Email_findall "a@b.com, x@y.pdf or a@b.com" → email_addr e ≠ "x@y.pdf".
Proof.
  split_and!; [vm_compute; reflexivity..|].
  apply (proj1 (proj2 (proj2 (C7_findall_unique_parsed_matches _)))
           "x@y.pdf" (TypeError "Invalid domain 'y.pdf'")).
  vm_compute. reflexivity.
Defined.

(** C9: two [Email] objects are equal exactly when their raw texts are
    equal. The raw texts a@b.comxyz and a@b.com differ and have the same
    string form a@b.com; the extractor returns both objects for a text that
    holds both, and the set of emails of the crawl keeps both after a page
    with that text. *)
Theorem C9_equality_is_raw_text :
  (∀ a b, Email_eq a b = true ↔ email_addr a = email_addr b)
  ∧ Email_init "a@b.comxyz" = Ok addr_comxyz
  ∧ Email_init "a@b.com" = Ok addr_com
  ∧ Email_str addr_comxyz = Email_str addr_com
  ∧ Email_eq addr_comxyz addr_com = false
  ∧ Email_findall "a@b.comxyz a@b.com" ≡ₚ [addr_comxyz; addr_com]
  ∧ (let st := state_of (loop_body "http://h/"
                           (Fetched 200 (Some "text/html") (Some "a@b.comxyz a@b.com") [])
                           (crawl_init "http://h/")) in
     emails st !! "a@b.comxyz" = Some addr_comxyz
     ∧ emails st !! "a@b.com" = Some addr_com
     ∧ size (emails st) = 2%nat).
Proof.
  split_and!; try (vm_compute; reflexivity).
  - intros a b. unfold Email_eq. apply String.eqb_eq.
  - intros st. subst st. split_and!; vm_compute; reflexivity.
Qed.

End AddressClaims.

(** ** The breach check: attempts, backoff, frame *)

Section PwnedClaims.

Variable requests_get : string → nat → http_result.
Variable float_of_text : string → option float.
Variable time_sleep : float → option exn.

Abbreviation attempt' := (attempt requests_get float_of_text time_sleep).
Abbreviation pwned' := (pwned requests_get float_of_text time_sleep).

(** C4: what the code does on a rate-limited response (429 or 503) with a
    retry-after header, looked up without regard to case, whose value
    [float] reads as [d]. [d] becomes [pwned_sleep], and stays on the object
    for later calls. If [d] exceeds 80000 the call ends at once, with no
    sleep after the request; the exception is the NameError of the undefined
    name TimeoutException, not a timeout exception. Otherwise the code calls
    [time.sleep(d)]; [d] comes unchecked from the header, so the call can
    raise (a negative [d], nan), and then that exception ends the check;
    when it returns, the pass is over and the loop goes to its next
    attempt. *)
Theorem C4_rate_limited_retry_after calls self trace status_code headers k v d :
  requests_get (pwned_url self) calls = GetReturns status_code headers →
  status_code = 429 ∨ status_code = 503 →
  (k, v) ∈ headers → Str.lower k = "retry-after" →
  (∀ k' v', (k', v') ∈ headers → Str.lower k' = "retry-after" → v' = v) →
  float_of_text v = Some d →
  attempt' calls self trace
  = let self' := mkEmail (email_addr self) (name self) (domain self) (_tld self)
                   (country self) d (Some "rate limit") None in
    if (80000 <? d)%float
    then Stop self' (Raise (NameError "name 'TimeoutException' is not defined"))
           (trace ++ [Get (pwned_url self)])
    else match time_sleep d with
         | Some e => Stop self' (Raise e) ((trace ++ [Get (pwned_url self)]) ++ [Sleep d])
         | None => Next self' ((trace ++ [Get (pwned_url self)]) ++ [Sleep d])
         end.
Proof.
  intros Hget Hcode Hin Hk Huniq Hd.
  apply attempt_rate_limited with (status_code := status_code) (headers := headers);
    [done..|].
  rewrite retry_after_header with (k := k) (v := v) by done. by rewrite Hd.
Qed.

(** C6, amended: a call makes at most two requests. When both passes end
    without a return and without a raise, the call raises the exception of
    the exhausted retries, whose message ends with the [last_error] of the
    object: the transport error of the second request if that request
    failed, and None otherwise, whatever happened to the first request. A
    pass ends that way only if its request failed in transport, or if the
    request was answered with a status other than 200 and 404, the sleep
    duration then on the object is not above 80000 and [time.sleep] of it
    returned: an exception of [time.sleep] ends the call instead. *)
Theorem C6_attempts_and_exhaustion self :
  (requests_made (pwned' self).2 ≤ 2)%nat
  ∧ (∀ s1 t1 s2 t2,
       attempt' 0 self [] = Next s1 t1 →
       attempt' 1 s1 t1 = Next s2 t2 →
       pwned' self = (s2, Raise (failed_max_retry s2), t2)
       ∧ requests_made t2 = 2%nat
       ∧ last_error s2 = match requests_get (pwned_url self) 1%nat with
                         | GetRaises e => Some e
                         | GetReturns _ _ => None
                         end)
  ∧ (∀ calls s0 t0 s t,
       attempt' calls s0 t0 = Next s t →
       match requests_get (pwned_url s0) calls with
       | GetRaises e => s = set_last_error s0 (Some e) ∧ t = t0 ++ [Get (pwned_url s0)]
       | GetReturns status_code _ =>
           status_code ≠ 200 ∧ status_code ≠ 404
           ∧ time_sleep (pwned_sleep s) = None
           ∧ t = (t0 ++ [Get (pwned_url s0)]) ++ [Sleep (pwned_sleep s)]
           ∧ (status_code = 429 ∨ status_code = 503 → (80000 <? pwned_sleep s)%float = false)
       end).
Proof.
  split_and!.
  - apply (pwned_loop_requests requests_get float_of_text time_sleep 2 0 self []).
  - intros s1 t1 s2 t2 H1 H2.
    split; [unfold pwned; simpl; by rewrite H1, H2|].
    pose proof (attempt_requests requests_get float_of_text time_sleep 0 self []) as R1.
    pose proof (attempt_requests requests_get float_of_text time_sleep 1 s1 t1) as R2.
    pose proof (attempt_frame requests_get float_of_text time_sleep 0 self []) as F1.
    rewrite H1 in R1, F1. rewrite H2 in R2.
    split; [by rewrite R2, R1|].
    apply same_parsed_str in F1. revert H2. unfold attempt, sleep_then.
    fold (pwned_url s1). unfold pwned_url at 1. rewrite <- F1. fold (pwned_url self).
    destruct (requests_get (pwned_url self) 1) as [e|status_code headers];
      [by intros [= <- _]|].
    destruct (pwned_status_codes status_code) as [status [b|]];
      [by destruct (time_sleep _)|].
    destruct (String.eqb status "rate limit");
      [|by destruct (time_sleep _); [|intros [= <- _]]].
    destruct (retry_after _ _) as [d|e]; [|done].
    destruct (80000 <? _)%float; [done|].
    by destruct (time_sleep _); [|intros [= <- _]].
  - intros calls s0 t0 s t. unfold attempt, sleep_then. fold (pwned_url s0).
    destruct (requests_get (pwned_url s0) calls) as [e|status_code headers];
      [by intros [= <- <-]|].
    assert (Hcodes : ∀ status,
      pwned_status_codes status_code = (status, None) →
      status_code ≠ 200 ∧ status_code ≠ 404
      ∧ (status_code = 429 ∨ status_code = 503 → status = "rate limit")).
    { intros status. unfold pwned_status_codes.
      destruct (Z.eqb_spec status_code 200); [done|].
      destruct (Z.eqb_spec status_code 404); [done|].
      destruct (Z.eqb_spec status_code 429); [by intros [= <-]|].
      destruct (Z.eqb_spec status_code 503); [by intros [= <-]|].
      intros _. split_and!; [done..|]. by intros [|]. }
    destruct (pwned_status_codes status_code) as [status [b|]] eqn:Ec;
      [by destruct (time_sleep _)|].
    destruct (Hcodes _ eq_refl) as (N200 & N404 & Hrl).
    destruct (String.eqb status "rate limit") eqn:Es.
    + destruct (retry_after _ _) as [d|e]; [|done].
      destruct (80000 <? _)%float eqn:E8; [done|].
      destruct (time_sleep _) eqn:Et; [done|]. intros [= <- <-]. by split_and!.
    + destruct (time_sleep _) eqn:Et; [done|]. intros [= <- <-].
      split_and!; try done.
      intros Hc%Hrl. subst status. by rewrite String.eqb_refl in Es.
Qed.

(** C10: whatever a breach check returns or raises, the object afterwards
    has the raw text, the local part, the domain (and so its labels), the
    top-level domain and the country it had before, hence the same string
    form; the attributes left are [pwned_sleep], [pwned_status] and
    [last_error]. *)
Theorem C10_pwned_keeps_parsed_fields self :
  email_addr (pwned' self).1.1 = email_addr self
  ∧ name (pwned' self).1.1 = name self
  ∧ domain (pwned' self).1.1 = domain self
  ∧ Str.split "." (domain (pwned' self).1.1) = Str.split "." (domain self)
  ∧ tld (pwned' self).1.1 = tld self
  ∧ country (pwned' self).1.1 = country self
  ∧ Email_str (pwned' self).1.1 = Email_str self.
Proof.
  pose proof (pwned_loop_frame requests_get float_of_text time_sleep 2 0 self []) as H.
  fold (pwned' self) in H.
  pose proof (same_parsed_str _ _ H) as Hs.
  destruct H as (Ha & Hn & Hd & Ht & Hc). unfold tld.
  split_and!; congruence.
Qed.

End PwnedClaims.

Lemma C4_rate_limited_retry_after_witness :
  attempt net_retry_after_90000 float_of_digits time_sleep_py 0 addr_com []
  = Stop (mkEmail "a@b.com" "a" "b" (Some "com") None 90000 (Some "rate limit") None)
      (Raise (NameError "name 'TimeoutException' is not defined"))
      [Get "https://haveibeenpwned.com/api/v2/breachedaccount/a@b.com"].
Proof.
  apply (C4_rate_limited_retry_after net_retry_after_90000 float_of_digits
           time_sleep_py 0 addr_com [] 429 [("Retry-After", "90000")] "Retry-After" "90000" 90000).
  - reflexivity.
  - left. reflexivity.
  - apply list_elem_of_here.
  - reflexivity.
  - intros k' v' H%list_elem_of_singleton _. congruence.
  - vm_compute. reflexivity.
Defined.

(** The whole call on that answer: one request, no sleep, the NameError. *)
Example pwned_retry_after_90000 :
  pwned net_retry_after_90000 float_of_digits time_sleep_py addr_com
  = (mkEmail "a@b.com" "a" "b" (Some "com") None 90000 (Some "rate limit") None,
     Raise (NameError "name 'TimeoutException' is not defined"),
     [Get "https://haveibeenpwned.com/api/v2/breachedaccount/a@b.com"]).
Proof. vm_compute. reflexivity. Qed.

(** The whole call on a retry-after of -5: the value becomes [pwned_sleep],
    [time.sleep(-5.0)] raises ValueError, and the call ends there, after one
    request, with no second attempt. *)
Example pwned_retry_after_minus_5 :
  pwned net_retry_after_minus_5 float_of_digits time_sleep_py addr_com
  = (mkEmail "a@b.com" "a" "b" (Some "com") None (-5) (Some "rate limit") None,
     Raise (ValueError "sleep length must be non-negative"),
     [Get "https://haveibeenpwned.com/api/v2/breachedaccount/a@b.com"; Sleep (-5)]).
Proof. vm_compute. reflexivity. Qed.

(** C6, as stated, fails: the first request fails in transport, the second
    is answered 500, both passes end without an outcome, and the exception
    of the exhausted retries carries None, not the transport error. *)
Lemma C6_earlier_transport_error_dropped :
  net_error_then_500 (pwned_url addr_com) 0 = GetRaises (RequestException "timed out")
  ∧ net_error_then_500 (pwned_url addr_com) 1 = GetReturns 500 []
  ∧ pwned net_error_then_500 float_of_digits time_sleep_py addr_com
    = (mkEmail "a@b.com" "a" "b" (Some "com") None 1.7
         (Some "unknown status code 500") None,
       Raise (Exception "pwned a@b.com: failed max retry, last error None"),
       [Get "https://haveibeenpwned.com/api/v2/breachedaccount/a@b.com";
        Get "https://haveibeenpwned.com/api/v2/breachedaccount/a@b.com";
        Sleep 1.7]).
Proof. split_and!; vm_compute; reflexivity. Qed.

Lemma C6_attempts_and_exhaustion_witness :
  pwned net_error_then_500 float_of_digits time_sleep_py addr_com
  = (mkEmail "a@b.com" "a" "b" (Some "com") None 1.7
       (Some "unknown status code 500") None,
     Raise (failed_max_retry
              (mkEmail "a@b.com" "a" "b" (Some "com") None 1.7
                 (Some "unknown status code 500") None)),
     [Get "https://haveibeenpwned.com/api/v2/breachedaccount/a@b.com";
      Get "https://haveibeenpwned.com/api/v2/breachedaccount/a@b.com";
      Sleep 1.7]).
Proof.
  apply (proj1 (proj2 (C6_attempts_and_exhaustion net_error_then_500 float_of_digits
                         time_sleep_py addr_com))
           (mkEmail "a@b.com" "a" "b" (Some "com") None 1.7 None
              (Some (RequestException "timed out")))
           [Get "https://haveibeenpwned.com/api/v2/breachedaccount/a@b.com"]).
  - vm_compute. reflexivity.
  - vm_compute. reflexivity.
Defined.

(** ** The traversal loop: error budget, disjoint sets *)

Section CrawlClaims.
Import CrawlFacts.

(** C2: in a pass of the loop, once the picked link has left the to-do set
    and entered the visited set, the loop is left by [break] exactly when
    the error count exceeds 3 and exceeds [int(0.9 * len(visited))]; the
    state it is left in has the emails and the error count collected so far,
    and the construction goes on to count the visited links. The threshold
    is the floor of nine tenths of the size (for every size below 10000); it
    is 2 for three visited links, so with four errors the pass breaks,
    whether the three links are counted with the picked link or before it. *)
Theorem C2_error_budget_break :
  (∀ st link r,
     3 < error_count st →
     threshold (Z.of_nat (size (visited st ∪ {[link]}))) < error_count st →
     loop_body link r st
     = Break (mkCrawl (to_do_list st ∖ {[link]}) (visited st ∪ {[link]})
                (emails st) (error_count st)))
  ∧ (∀ st link r st',
       loop_body link r st = Break st' →
       3 < error_count st
       ∧ threshold (Z.of_nat (size (visited st ∪ {[link]}))) < error_count st)
  ∧ (∀ cleanaddress st link r st',
       reachable cleanaddress st → link ∈ to_do_list st →
       loop_body link r st = Break st' →
       loop_exit cleanaddress st'
       ∧ emails st' = emails st
       ∧ error_count st' = error_count st
       ∧ links_visited st' = links_visited st + 1)
  ∧ (∀ n, 0 ≤ n < 10000 → threshold n = 9 * n / 10)
  ∧ threshold 3 = 2
  ∧ (∀ st link r,
       error_count st = 4 → size (visited st ∪ {[link]}) = 3%nat →
       ∃ st', loop_body link r st = Break st')
  ∧ (∀ st link r,
       error_count st = 4 → size (visited st) = 3%nat →
       ∃ st', loop_body link r st = Break st').
Proof.
  split_and!.
  - intros st link r H3 Ht. apply loop_body_Break. split; [|done].
    by apply over_budget_true.
  - intros st link r st' [H _]%loop_body_Break. by apply over_budget_true.
  - intros c st link r st' Hr Hin Hb. split; [exact (exit_break c st link r st' Hr Hin Hb)|].
    apply loop_body_Break in Hb as [_ ->]. cbn [emails error_count].
    split_and!; try done.
    unfold links_visited. cbn [visited].
    pose proof (reachable_disjoint _ _ Hr) as Hd.
    rewrite size_union by set_solver. rewrite size_singleton. lia.
  - apply threshold_floor.
  - vm_compute. reflexivity.
  - intros st link r He Hs. eexists. apply loop_body_Break. split; [|done].
    apply over_budget_true. rewrite He, Hs. by vm_compute.
  - intros st link r He Hs. eexists. apply loop_body_Break. split; [|done].
    apply over_budget_true. rewrite He.
    destruct (decide (link ∈ visited st)) as [Hin|Hin].
    + replace (visited st ∪ {[link]}) with (visited st) by set_solver.
      rewrite Hs. by vm_compute.
    + rewrite size_union by set_solver. rewrite size_singleton, Hs. by vm_compute.
Qed.

Lemma C2_error_budget_break_witness :
  loop_body "http://h/c" FetchRaises crawl_four_errors
  = Break (mkCrawl (to_do_list crawl_four_errors ∖ {[ "http://h/c" ]})
             (visited crawl_four_errors ∪ {[ "http://h/c" ]})
             (emails crawl_four_errors) (error_count crawl_four_errors)).
Proof.
  apply (proj1 C2_error_budget_break crawl_four_errors "http://h/c" FetchRaises).
  - vm_compute. reflexivity.
  - vm_compute. reflexivity.
Defined.

(** C8: at every test of the loop condition, and when the loop is left, no
    link is both visited and to do. In a pass the picked link, which was to
    do and not visited, becomes visited and stops being to do; no other link
    becomes visited and no other link leaves the to-do set; every link that
    enters the to-do set is not visited; and each single addition of lines
    286-288 keeps the two sets disjoint. *)
Theorem C8_visited_pending_disjoint (cleanaddress : string) :
  (∀ st, reachable cleanaddress st → visited st ## to_do_list st)
  ∧ (∀ st, loop_exit cleanaddress st → visited st ## to_do_list st)
  ∧ (∀ st link r,
       reachable cleanaddress st → link ∈ to_do_list st →
       (link ∉ visited st)
       ∧ visited (state_of (loop_body link r st)) = visited st ∪ {[link]}
       ∧ (link ∉ to_do_list (state_of (loop_body link r st)))
       ∧ (∀ l, l ∈ to_do_list st → l ≠ link → l ∈ to_do_list (state_of (loop_body link r st)))
       ∧ (∀ l, l ∈ to_do_list (state_of (loop_body link r st)) → l ∉ to_do_list st →
               l ∉ visited (state_of (loop_body link r st))))
  ∧ (∀ (V T : gset string) l, V ## T → V ## add_link V T l).
Proof.
  split_and!.
  - apply reachable_disjoint.
  - intros st [st' Hr _|st0 link r st' Hr _ Hb].
    + by apply (reachable_disjoint cleanaddress).
    + pose proof (loop_body_disjoint link r st0 (reachable_disjoint _ _ Hr)) as H.
      by rewrite Hb in H.
  - intros st link r Hr Hin.
    pose proof (reachable_disjoint _ _ Hr) as Hd.
    destruct (loop_body_sets link r st) as (ls & -> & ->).
    split_and!; [set_solver|done|..].
    + rewrite foldl_add_link_elem. set_solver.
    + intros l Hl Hne. rewrite foldl_add_link_elem. set_solver.
    + intros l Hl Hnew. apply foldl_add_link_elem in Hl. set_solver.
  - apply add_link_disjoint.
Qed.

Lemma C8_visited_pending_disjoint_witness :
  visited (crawl_init "http://h/") ## to_do_list (crawl_init "http://h/").
Proof.
  apply (proj1 (C8_visited_pending_disjoint "http://h/") (crawl_init "http://h/")).
  apply reach_init.
Defined.

End CrawlClaims.

(** ** The scenario of the specification *)

(** C5: the raw address user@sub.example.gov.uk is accepted; its local part
    is user, its domain labels are sub and example, its top-level domain is
    gov and its country is uk. The two-character last label uk is taken off
    first (lower-cased), and the tld prefix match then looks at gov, the
    label that has become the last one. *)
Theorem C5_parse_user_sub_example_gov_uk :
  ∃ e : Email,
    Email_init "user@sub.example.gov.uk" = Ok e
    ∧ name e = "user"
    ∧ domain e = "sub.example"
    ∧ Str.split "." (domain e) = ["sub"; "example"]
    ∧ tld e = Some "gov"
    ∧ country e = Some "uk"
    ∧ strip_country ["sub"; "example"; "gov"; "uk"] = (["sub"; "example"; "gov"], Some "uk")
    ∧ strip_tld ["sub"; "example"; "gov"] = (["sub"; "example"], Some "gov")
    ∧ startswith_tld "uk" = None.
Proof.
  eexists. split; [vm_compute; reflexivity|].
  repeat split; vm_compute; reflexivity.
Qed.

(** ** Further properties of the address parser *)

Section ParserExtras.
Import Str StrFacts EmailFacts FindallFacts.

Lemma length_split sep s : length (split sep s) = S (count_char sep s).
Proof.
  induction s as [|c s IH]; simpl; [done|].
  destruct (Ascii.eqb c sep); simpl; [by rewrite IH|].
  destruct (split sep s); simpl in *; lia.
Qed.

(** The constructor, by cases on the split at [@] and on the last label. *)
Lemma Email_init_cases s :
  match split "@" s with
  | [n; d] =>
      if last_label_ok (split "." d)
      then ∃ e, Email_init s = Ok e
      else Email_init s = Raise (invalid_domain d)
  | [_] => Email_init s = Raise not_enough_values
  | _ => Email_init s = Raise too_many_values
  end.
Proof.
  destruct (split "@" s) as [|n [|d [|? ?]]] eqn:Hs;
    try (unfold Email_init; by rewrite Hs).
  destruct (last_label_ok (split "." d)) eqn:Hok.
  - eexists. apply Email_init_Ok. exists n, d. split_and!; done.
  - unfold Email_init. rewrite Hs.
    change (tld_setter_check None) with (Ok (@None string)).
    cbv beta iota delta [bind]. unfold last_label_ok in Hok.
    apply negb_false_iff in Hok. by rewrite Hok.
Qed.

(** X1: the constructor raises the ValueError of a failed unpacking exactly
    when the text does not hold exactly one [@]: "not enough values" without
    any, "too many values" with two or more, and no ValueError with one. *)
Theorem Email_init_ValueError_iff_not_one_at (s : string) :
  (count_char "@" s = 0%nat ↔ Email_init s = Raise not_enough_values)
  ∧ ((2 ≤ count_char "@" s)%nat ↔ Email_init s = Raise too_many_values)
  ∧ (count_char "@" s = 1%nat ↔ ∀ msg, Email_init s ≠ Raise (ValueError msg)).
Proof.
  pose proof (length_split "@" s) as Hlen.
  pose proof (Email_init_cases s) as Hc.
  destruct (split "@" s) as [|n [|d [|? ?]]]; simpl in Hlen.
  - lia.
  - rewrite Hc. split_and!; split; try done; try lia.
    intros H. by specialize (H _ eq_refl).
  - assert (count_char "@" s = 1%nat) as -> by lia.
    assert (Hno : ∀ msg, Email_init s ≠ Raise (ValueError msg)).
    { destruct (last_label_ok _); [destruct Hc as [e ->]|rewrite Hc]; done. }
    split_and!; split; try done; try lia; intros H; by apply Hno in H.
  - rewrite Hc. split_and!; split; try done; try lia.
    intros H. by specialize (H _ eq_refl).
Qed.

(** X2: whatever the constructor raises is one of three exceptions: the two
    of the unpacking, or "Invalid domain" for a domain whose last label is
    the lone x or a skipped file type. The tld setter never rejects during
    construction, so a text with one [@] is accepted whenever its last label
    passes, whatever the label looks like (xyz, 123456, the empty label). *)
Theorem Email_init_exceptions (s : string) :
  (∀ err, Email_init s = Raise err →
     err = not_enough_values ∨ err = too_many_values
     ∨ ∃ n d, split "@" s = [n; d] ∧ err = invalid_domain d
              ∧ (List.last (split "." d) "" = "x"
                 ∨ In (List.last (split "." d) "") skip_types))
  ∧ (∀ n d, split "@" s = [n; d] →
       List.last (split "." d) "" ≠ "x" →
       ¬ In (List.last (split "." d) "") skip_types →
       ∃ e, Email_init s = Ok e).
Proof.
  pose proof (Email_init_cases s) as Hc. split.
  - intros err Herr.
    destruct (split "@" s) as [|n [|d [|? ?]]]; try (rewrite Hc in Herr; naive_solver).
    destruct (last_label_ok (split "." d)) eqn:Hok.
    { destruct Hc as [e He]. congruence. }
    rewrite Hc in Herr. injection Herr as <-. right. right.
    exists n, d. split_and!; try done.
    unfold last_label_ok in Hok. apply negb_false_iff, orb_true_iff in Hok.
    destruct Hok as [H%String.eqb_eq|H%mem_In]; auto.
  - intros n d Hs Hx Hskip. rewrite Hs in Hc.
    assert (last_label_ok (split "." d) = true) as Hok.
    { unfold last_label_ok. apply negb_true_iff, orb_false_iff. split.
      - by apply String.eqb_neq.
      - destruct (mem _ skip_types) eqn:E; [by apply mem_In in E|done]. }
    by rewrite Hok in Hc.
Qed.

Lemma Email_init_exceptions_witness :
  ∃ e, Email_init "a@b.xyz" = Ok e.
Proof.
  apply (proj2 (Email_init_exceptions "a@b.xyz") "a" "b.xyz").
  - reflexivity.
  - vm_compute. intros [=].
  - vm_compute. intros H. repeat (destruct H as [[=]|H]). exact H.
Defined.

Lemma count_char_app x a b : count_char x (a ++ b) = (count_char x a + count_char x b)%nat.
Proof. induction a as [|c a IH]; simpl; [done|]. rewrite IH. lia. Qed.

Lemma nochar_count x s : nochar x s = true ↔ count_char x s = 0%nat.
Proof.
  unfold nochar. induction s as [|c s IH]; simpl; [done|].
  rewrite andb_true_iff, IH. destruct (Ascii.eqb c x); simpl; split; try lia;
    try done; by intros [? ?].
Qed.

Lemma append_nil_r (a : string) : (a ++ "")%string = a.
Proof. induction a as [|c a IH]; simpl; [done|]. by f_equal. Qed.

Lemma concat_empty_cons x l : String.concat "" (x :: l) = (x ++ String.concat "" l)%string.
Proof. destruct l; simpl; [by rewrite append_nil_r|done]. Qed.

Lemma concat_empty_app a b :
  String.concat "" (a ++ b) = (String.concat "" a ++ String.concat "" b)%string.
Proof.
  induction a as [|x a IH]; [done|].
  change ((x :: a) ++ b) with (x :: (a ++ b)).
  by rewrite !concat_empty_cons, IH, append_assoc.
Qed.

(** The labels that [parse_labels] takes off the end, next to what it
    records for them. *)
Lemma parse_labels_suffix dl L t c :
  parse_labels dl = (L, t, c) →
  ∃ rt rc,
    dl = L ++ rt ++ rc
    ∧ match t with
      | None => rt = []
      | Some T => ∃ t0, rt = [t0] ∧ In T email_tlds ∧ startswith (lower t0) T = true
      end
    ∧ match c with
      | None => rc = []
      | Some C => ∃ c0, rc = [c0] ∧ C = lower c0 ∧ String.length c0 = 2%nat
      end.
Proof.
  unfold parse_labels. intros H.
  destruct (forallb isnumeric dl); simpl in H.
  { injection H as <- <- <-. exists [], []. by rewrite !app_nil_r. }
  destruct (strip_country_cases dl) as [[Ec Hc]|(dl1 & c0 & -> & Hdl1 & Hlen & Ec)];
    rewrite Ec in H.
  - destruct (strip_tld_cases dl) as [[Et Ht]|(dl2 & t0 & t1 & -> & Hdl2 & Hin & Hpre & Et)];
      rewrite Et in H; injection H as <- <- <-.
    + exists [], []. by rewrite !app_nil_r.
    + exists [t0], []. rewrite app_nil_r. split_and!; eauto.
  - destruct (strip_tld_cases dl1) as [[Et Ht]|(dl2 & t0 & t1 & -> & Hdl2 & Hin & Hpre & Et)];
      rewrite Et in H; injection H as <- <- <-.
    + exists [], [c0]. split_and!; eauto.
    + exists [t0], [c0]. rewrite <- app_assoc. split_and!; eauto.
Qed.

Lemma join_suffix L R :
  L ≠ [] →
  join "." (L ++ R)
  = (join "." L ++ String.concat "" (map (fun w => "." ++ w) R))%string.
Proof.
  intros HL. destruct R as [|r R].
  - rewrite app_nil_r. simpl. by rewrite append_nil_r.
  - rewrite join_app by done. f_equal.
    clear HL. revert r. induction R as [|r' R IH]; intros r.
    + simpl. induction r; simpl; [done|]. by f_equal.
    + rewrite join_cons by done. rewrite IH. reflexivity.
Qed.

(** X3: how the raw text splits into the parsed attributes. An accepted
    text is the local part, the [@], the domain, then the label the tld was
    found in (if any) and the label the country was found in (if any), each
    after a dot: the tld recorded is the allow-set entry that the
    lower-cased label starts with, the country is the lower-cased label of
    two characters, and nothing else is taken off. *)
Theorem Email_init_raw_text (s : string) (e : Email) :
  Email_init s = Ok e →
  ∃ rt rc,
    s = (name e ++ "@" ++ domain e ++ rt ++ rc)%string
    ∧ email_addr e = s
    ∧ match tld e with
      | None => rt = ""
      | Some T => ∃ t0, rt = ("." ++ t0)%string ∧ In T email_tlds
                        ∧ startswith (lower t0) T = true
      end
    ∧ match country e with
      | None => rc = ""
      | Some C => ∃ c0, rc = ("." ++ c0)%string ∧ C = lower c0
                        ∧ String.length c0 = 2%nat
      end.
Proof.
  intros (n & d & Hs & Hok & ->)%Email_init_Ok.
  destruct (parse_labels (split "." d)) as [[L t] c] eqn:Hp.
  destruct (parse_labels_shape _ _ _ _ Hp (split_not_nil _ _)) as (HL & _).
  destruct (parse_labels_suffix _ _ _ _ Hp) as (rt & rc & Hdl & Ht & Hc).
  pose proof (join_split "@" s) as Js. rewrite Hs in Js.
  pose proof (join_split "." d) as Jd. rewrite Hdl, join_suffix in Jd by done.
  cbn [name domain tld _tld country email_addr].
  exists (String.concat "" (map (fun w => "." ++ w)%string rt)),
         (String.concat "" (map (fun w => "." ++ w)%string rc)).
  split_and!; try done.
  - rewrite <- Js. change (join "@" [n; d]) with (n ++ "@" ++ d)%string.
    do 2 f_equal. rewrite <- Jd. f_equal.
    by rewrite map_app, concat_empty_app.
  - destruct t as [T|]; [|by subst rt].
    destruct Ht as (t0 & -> & Hin & Hpre). by exists t0.
  - destruct c as [C|]; [|by subst rc].
    destruct Hc as (c0 & -> & -> & Hlen). by exists c0.
Qed.

Lemma Email_init_raw_text_witness :
  ∃ rt rc,
    "a@b.COMxyz.UK" = (name (mkEmail "a@b.COMxyz.UK" "a" "b" (Some "com") (Some "uk") 1.7 None None)
                       ++ "@" ++ "b" ++ rt ++ rc)%string
    ∧ "a@b.COMxyz.UK" = "a@b.COMxyz.UK"
    ∧ (∃ t0, rt = ("." ++ t0)%string ∧ In "com" email_tlds ∧ startswith (lower t0) "com" = true)
    ∧ (∃ c0, rc = ("." ++ c0)%string ∧ "uk" = lower c0 ∧ String.length c0 = 2%nat).
Proof.
  apply (Email_init_raw_text "a@b.COMxyz.UK"
           (mkEmail "a@b.COMxyz.UK" "a" "b" (Some "com") (Some "uk") 1.7 None None)).
  vm_compute. reflexivity.
Defined.

Lemma isnumeric_chars w : isnumeric w = true → all_chars isnumeric_char w = true.
Proof. by destruct w. Qed.

Lemma isnumeric_nochar_at w : isnumeric w = true → nochar "@" w = true.
Proof.
  intros H%isnumeric_chars. unfold nochar.
  induction w as [|c w IH]; simpl in *; [done|].
  apply andb_true_iff in H as [Hc Hw]. rewrite IH by done.
  destruct (Ascii.eqb c "@") eqn:E; [|done].
  apply Ascii.eqb_eq in E. by subst c.
Qed.

Lemma isnumeric_label_ok w : isnumeric w = true → String.eqb w "x" = false ∧ mem w skip_types = false.
Proof.
  intros H. split.
  - destruct (String.eqb w "x") eqn:E; [|done]. apply String.eqb_eq in E. by subst w.
  - destruct (mem w skip_types) eqn:E; [|done]. apply mem_In in E. simpl in E.
    repeat (destruct E as [<-|E]; [by vm_compute in H|]). done.
Qed.

Lemma split_at_address n d :
  nochar "@" n = true → nochar "@" d = true →
  split "@" (n ++ "@" ++ d) = [n; d].
Proof.
  intros Hn Hd.
  change (n ++ "@" ++ d)%string with (n ++ String "@" d)%string.
  by rewrite split_app_sep, split_nochar.
Qed.

(** X4: a domain whose labels are all numeric is kept whole. With a local
    part free of [@], the address is accepted, the domain attribute is the
    whole domain, and there is neither tld nor country, even when the last
    label has two characters. *)
Theorem Email_init_numeric_domain (n d : string) :
  nochar "@" n = true →
  forallb isnumeric (split "." d) = true →
  Email_init (n ++ "@" ++ d) = Ok (mkEmail (n ++ "@" ++ d) n d None None 1.7 None None).
Proof.
  intros Hn Hnum.
  assert (Hd : nochar "@" d = true).
  { rewrite <- (join_split "." d). apply nochar_join; [done|].
    rewrite forallb_forall in Hnum. apply Forall_forall.
    intros w Hw%list_elem_of_In. by apply isnumeric_nochar_at, Hnum. }
  apply Email_init_Ok. exists n, d. split_and!.
  - by apply split_at_address.
  - unfold last_label_ok.
    assert (isnumeric (List.last (split "." d) "") = true) as Hl.
    { rewrite forallb_forall in Hnum. apply Hnum.
      pose proof (split_not_nil "." d) as Hne.
      destruct (split "." d) as [|w ws] eqn:E; [done|].
      rewrite (app_removelast_last "" (l := w :: ws)) at 2 by done.
      apply in_or_app. right. by left. }
    destruct (isnumeric_label_ok _ Hl) as [-> ->]. done.
  - unfold parse_labels. rewrite Hnum. simpl. by rewrite join_split.
Qed.

Lemma Email_init_numeric_domain_witness :
  Email_init ("a" ++ "@" ++ "10.0.0.12")
  = Ok (mkEmail ("a" ++ "@" ++ "10.0.0.12") "a" "10.0.0.12" None None 1.7 None None).
Proof. apply Email_init_numeric_domain; reflexivity. Defined.

(** X5: a domain without a dot is kept whole too: with one label there is
    nothing to take off, so a@com and a@uk have neither tld nor country. *)
Theorem Email_init_single_label (n d : string) :
  nochar "@" n = true → nochar "@" d = true → nochar "." d = true →
  d ≠ "x" → ¬ In d skip_types →
  Email_init (n ++ "@" ++ d) = Ok (mkEmail (n ++ "@" ++ d) n d None None 1.7 None None).
Proof.
  intros Hn Hd Hdot Hx Hskip.
  apply Email_init_Ok. exists n, d. rewrite (split_nochar "." d) by done.
  split_and!.
  - by apply split_at_address.
  - unfold last_label_ok. simpl List.last.
    apply negb_true_iff, orb_false_iff. split; [by apply String.eqb_neq|].
    destruct (mem d skip_types) eqn:E; [by apply mem_In in E|done].
  - unfold parse_labels, strip_country, strip_tld. simpl.
    by destruct (isnumeric d).
Qed.

Lemma Email_init_single_label_witness :
  Email_init ("a" ++ "@" ++ "uk")
  = Ok (mkEmail ("a" ++ "@" ++ "uk") "a" "uk" None None 1.7 None None).
Proof.
  apply Email_init_single_label; try reflexivity.
  - intros [=].
  - simpl. intros H. repeat (destruct H as [[=]|H]). exact H.
Defined.

(** X6: [email_tlds] is a set, and [startswith_tld] returns the first hit in
    the order in which the set happens to be iterated. Whatever that order,
    the answer is the same, since at most one entry of the allow-set is a
    prefix of a given text. *)
Theorem startswith_tld_any_order (tlds : list string) (x : string) :
  tlds ≡ₚ email_tlds → startswith_tld_in tlds x = startswith_tld x.
Proof. apply startswith_tld_order_irrelevant. Qed.

Lemma startswith_tld_any_order_witness :
  startswith_tld_in (rev email_tlds) "BANKrupt" = startswith_tld "BANKrupt".
Proof.
  apply startswith_tld_any_order. symmetry. apply Permutation_rev.
Defined.

(** X7: [startswith_tld] answers with an entry of the allow-set exactly
    when the lower-cased text starts with that entry, answers [False] exactly
    when it starts with none, and does not look at the case of the text. *)
Theorem startswith_tld_spec (x : string) :
  (∀ t, startswith_tld x = Some t ↔ In t email_tlds ∧ startswith (lower x) t = true)
  ∧ (startswith_tld x = None ↔ ∀ t, In t email_tlds → startswith (lower x) t = false)
  ∧ startswith_tld (lower x) = startswith_tld x.
Proof.
  assert (H1 : ∀ y t, startswith_tld y = Some t ↔
                      In t email_tlds ∧ startswith (lower y) t = true).
  { intros y t. split; [apply startswith_tld_Some|].
    intros [Hin Hpre].
    destruct (startswith_tld y) as [t'|] eqn:E.
    - apply startswith_tld_Some in E as [Hin' Hpre'].
      f_equal. by eapply tld_prefix_unique.
    - unfold startswith_tld in E. rewrite startswith_tld_in_None in E.
      rewrite (E _ Hin) in Hpre. done. }
  split_and!.
  - apply H1.
  - apply startswith_tld_in_None.
  - destruct (startswith_tld x) as [t|] eqn:E.
    + apply H1. apply H1 in E. by rewrite lower_idem.
    + apply startswith_tld_in_None. unfold startswith_tld in E.
      rewrite startswith_tld_in_None in E. by rewrite lower_idem.
Qed.

Lemma startswith_tld_spec_witness :
  startswith_tld "info" = None.
Proof.
  apply (proj1 (proj2 (startswith_tld_spec "info"))).
  intros t H. simpl in H. repeat (destruct H as [<-|H]; [reflexivity|]). destruct H.
Defined.

End ParserExtras.

(** ** Further properties of the extractor *)

Section ExtractorExtras.
Import Str StrFacts EmailFacts FindallFacts.

Lemma match_at_plus_cons cls p a s :
  Re.match_at (Re.Plus cls :: p) (String a s)
  = if cls a then
      match Re.match_at (Re.Plus cls :: p) s with
      | Some m => Some (String a m)
      | None => String a <$> Re.match_at p s
      end
    else None.
Proof. reflexivity. Qed.

Lemma match_at_plus_nil cls p : Re.match_at (Re.Plus cls :: p) "" = None.
Proof. reflexivity. Qed.

(** What the matcher returns matches the pattern and starts the text. *)
Lemma match_at_sound p s m :
  Re.match_at p s = Some m → re_matches p m ∧ ∃ post, s = (m ++ post)%string.
Proof.
  revert s m. induction p as [|[c|cls] p IH]; intros s m.
  - simpl. intros [= <-]. split; [constructor|by exists s].
  - simpl. destruct s as [|a s]; [done|].
    destruct (Ascii.eqb a c) eqn:E; [|done]. apply Ascii.eqb_eq in E. subst a.
    destruct (Re.match_at p s) as [m'|] eqn:Hm; [|done]. simpl. intros [= <-].
    destruct (IH _ _ Hm) as (Hre & post & ->).
    split; [by constructor|by exists post].
  - revert m. induction s as [|a s IHs]; intros m.
    + by rewrite match_at_plus_nil.
    + rewrite match_at_plus_cons. destruct (cls a) eqn:Ha; [|done].
      destruct (Re.match_at (Re.Plus cls :: p) s) as [m'|] eqn:Hm.
      * intros [= <-]. destruct (IHs _ eq_refl) as (Hre & post & ->).
        split; [|by exists post].
        inversion Hre as [| |? ? w m1 Hw Hall Hp]; subst.
        apply (matches_plus cls p (String a w) m1); [done| |done].
        simpl. by rewrite Ha.
      * destruct (Re.match_at p s) as [m1|] eqn:Hm1; [|done]. simpl. intros [= <-].
        destruct (IH _ _ Hm1) as (Hre & post & ->).
        split; [|by exists post].
        apply (matches_plus cls p (String a "") m1); [done| |done].
        simpl. by rewrite Ha.
Qed.

(** Where a text that matches the pattern starts, the matcher finds a
    match. *)
Lemma match_at_complete p m post :
  re_matches p m → is_Some (Re.match_at p (m ++ post)).
Proof.
  induction 1 as [|c p m _ IH|cls p w m Hw Hall _ IH].
  - by eexists.
  - simpl. rewrite Ascii.eqb_refl. destruct IH as [m' ->]. by eexists.
  - rewrite append_assoc.
    induction w as [|a w IHw]; [done|]. simpl in Hall.
    apply andb_true_iff in Hall as [Ha Hall].
    change (String a w ++ m ++ post)%string with (String a (w ++ m ++ post)).
    rewrite match_at_plus_cons, Ha.
    destruct w as [|b w].
    + change ("" ++ m ++ post)%string with (m ++ post)%string.
      destruct (Re.match_at (Re.Plus cls :: p) (m ++ post)); [by eexists|].
      destruct IH as [m' ->]. by eexists.
    + destruct IHw as [m' ->]; [done..|]. by eexists.
Qed.

Lemma findall_from_sound p skip text item :
  item ∈ Re.findall_from p skip text →
  re_matches p item ∧ ∃ pre post, text = (pre ++ item ++ post)%string.
Proof.
  revert skip. induction text as [|a text IH]; intros skip; simpl.
  - by intros ?%elem_of_nil.
  - destruct skip as [|k].
    + destruct (Re.match_at p (String a text)) as [m|] eqn:Hm.
      * intros [->|Hin]%elem_of_cons.
        -- destruct (match_at_sound _ _ _ Hm) as (Hre & post & ->).
           split; [done|]. by exists "", post.
        -- destruct (IH _ Hin) as (Hre & pre & post & ->).
           split; [done|]. by exists (String a pre), post.
      * intros Hin. destruct (IH _ Hin) as (Hre & pre & post & ->).
        split; [done|]. by exists (String a pre), post.
    + intros Hin. destruct (IH _ Hin) as (Hre & pre & post & ->).
      split; [done|]. by exists (String a pre), post.
Qed.

Lemma findall_nonempty p pre m post :
  re_matches p m → m ≠ "" → Re.findall p (pre ++ m ++ post) ≠ [].
Proof.
  intros Hre Hm. unfold Re.findall.
  induction pre as [|a pre IH].
  - destruct m as [|b m]; [done|].
    change ("" ++ String b m ++ post)%string with (String b (m ++ post)).
    simpl Re.findall_from.
    destruct (match_at_complete p (String b m) post Hre) as [m' Hm'].
    change (String b m ++ post)%string with (String b (m ++ post)) in Hm'.
    by rewrite Hm'.
  - change (String a pre ++ m ++ post)%string with (String a (pre ++ m ++ post)).
    simpl Re.findall_from.
    by destruct (Re.match_at p (String a (pre ++ m ++ post))).
Qed.

Lemma all_chars_nochar cls x w :
  cls x = false → all_chars cls w = true → nochar x w = true.
Proof.
  intros Hx. unfold nochar. induction w as [|c w IH]; simpl; [done|].
  intros [Hc Hw]%andb_true_iff. rewrite IH by done.
  destruct (Ascii.eqb c x) eqn:E; [|done]. apply Ascii.eqb_eq in E. congruence.
Qed.

(** The shape of a text that matches [email_pat]. *)
Lemma email_pat_shape m :
  re_matches email_pat m →
  ∃ a b c,
    m = (a ++ "@" ++ b ++ "." ++ c)%string
    ∧ a ≠ "" ∧ all_chars word_dot_char a = true
    ∧ b ≠ "" ∧ all_chars word_dot_char b = true
    ∧ c ≠ "" ∧ all_chars word_char c = true.
Proof.
  unfold email_pat. intros H.
  inversion H as [| |? ? a m1 Ha Haa H1]; subst.
  inversion H1 as [|? ? m2 H2|]; subst.
  inversion H2 as [| |? ? b m3 Hb Hbb H3]; subst.
  inversion H3 as [|? ? m4 H4|]; subst.
  inversion H4 as [| |? ? c m5 Hc Hcc H5]; subst.
  inversion H5; subst.
  exists a, b, c. rewrite append_nil_r. by split_and!.
Qed.

(** X8: the raw text of every object the extractor returns occurs in the
    text searched, and has the shape local part, [@], domain, dot, suffix:
    local part and domain are non-empty runs of letters, digits, underscore,
    hyphen and dot, the suffix a non-empty run of the same without the
    dot. *)
Theorem Email_findall_shape (text : string) (e : Email) :
  e ∈ Email_findall text →
  (∃ pre post, text = (pre ++ email_addr e ++ post)%string)
  ∧ ∃ a b c,
      email_addr e = (a ++ "@" ++ b ++ "." ++ c)%string
      ∧ a ≠ "" ∧ all_chars word_dot_char a = true
      ∧ b ≠ "" ∧ all_chars word_dot_char b = true
      ∧ c ≠ "" ∧ all_chars word_char c = true.
Proof.
  intros (item & Hin & He)%findall_elem.
  rewrite (Email_init_addr _ _ He).
  destruct (findall_from_sound _ _ _ _ Hin) as (Hre & Hsub).
  split; [done|]. by apply email_pat_shape.
Qed.

Lemma Email_findall_shape_witness :
  (∃ pre post, "mail a@b.com now" = (pre ++ email_addr addr_com ++ post)%string)
  ∧ ∃ a b c,
      email_addr addr_com = (a ++ "@" ++ b ++ "." ++ c)%string
      ∧ a ≠ "" ∧ all_chars word_dot_char a = true
      ∧ b ≠ "" ∧ all_chars word_dot_char b = true
      ∧ c ≠ "" ∧ all_chars word_char c = true.
Proof.
  apply (Email_findall_shape "mail a@b.com now" addr_com).
  vm_compute. apply list_elem_of_here.
Defined.

(** A match of the pattern holds one [@], and the constructor accepts it
    or raises "Invalid domain" for its suffix. *)
Lemma findall_item_cases text item :
  item ∈ Re.findall email_pat text →
  count_char "@" item = 1%nat
  ∧ ((∃ e, Email_init item = Ok e ∧ e ∈ Email_findall text)
     ∨ (∃ d, Email_init item = Raise (invalid_domain d)
             ∧ (List.last (split "." d) "" = "x"
                ∨ In (List.last (split "." d) "") skip_types))).
Proof.
  intros Hin.
  destruct (findall_from_sound _ _ _ _ Hin) as (Hre & _).
  destruct (email_pat_shape _ Hre) as (a & b & c & -> & _ & Ha & _ & Hb & _ & Hc).
  assert (Hna : nochar "@" a = true)
    by (apply (all_chars_nochar word_dot_char); [reflexivity|done]).
  assert (Hnd : nochar "@" (b ++ "." ++ c) = true).
  { rewrite !nochar_app.
    rewrite (all_chars_nochar word_dot_char "@" b) by (reflexivity || done).
    by rewrite (all_chars_nochar word_char "@" c) by (reflexivity || done). }
  pose proof (split_at_address _ _ Hna Hnd) as Hs.
  split.
  { pose proof (length_split "@" (a ++ "@" ++ b ++ "." ++ c)) as Hl.
    rewrite Hs in Hl. cbn [length] in Hl. lia. }
  pose proof (Email_init_cases (a ++ "@" ++ b ++ "." ++ c)) as Hcase.
  rewrite Hs in Hcase.
  destruct (last_label_ok (split "." (b ++ "." ++ c))) eqn:Hok.
  - left. destruct Hcase as [e He]. exists e. split; [done|].
    apply findall_elem. eauto.
  - right. exists (b ++ "." ++ c)%string. split; [done|].
    unfold last_label_ok in Hok. apply negb_false_iff, orb_true_iff in Hok.
    destruct Hok as [H%String.eqb_eq|H%mem_In]; auto.
Qed.

(** X9: the extractor drops a match only for its suffix. For every match
    of the pattern the constructor either returns an object, which is then
    in the result, or raises "Invalid domain" because the suffix after the
    last dot is the lone x or a skipped file type; it never fails at the
    [@], since a match holds exactly one. *)
Theorem Email_findall_drops_only_file_types (text item : string) :
  item ∈ Re.findall email_pat text →
  count_char "@" item = 1%nat
  ∧ ((∃ e, Email_init item = Ok e ∧ e ∈ Email_findall text)
     ∨ (∃ d, Email_init item = Raise (invalid_domain d)
             ∧ (List.last (split "." d) "" = "x"
                ∨ In (List.last (split "." d) "") skip_types))).
Proof. apply findall_item_cases. Qed.

Lemma Email_findall_drops_only_file_types_witness :
  count_char "@" "x@y.pdf" = 1%nat
  ∧ ((∃ e, Email_init "x@y.pdf" = Ok e ∧ e ∈ Email_findall "see x@y.pdf")
     ∨ (∃ d, Email_init "x@y.pdf" = Raise (invalid_domain d)
             ∧ (List.last (split "." d) "" = "x"
                ∨ In (List.last (split "." d) "") skip_types))).
Proof.
  apply (Email_findall_drops_only_file_types "see x@y.pdf" "x@y.pdf").
  vm_compute. apply list_elem_of_here.
Defined.

(** X10: the extractor overlooks no text. If the text holds, anywhere, a
    piece of the shape of [email_pat], the pattern search returns at least
    one match, and then the result is non-empty unless a match was dropped
    for its suffix. *)
Theorem Email_findall_finds (pre m post : string) :
  re_matches email_pat m →
  Re.findall email_pat (pre ++ m ++ post) ≠ []
  ∧ (Email_findall (pre ++ m ++ post) ≠ []
     ∨ ∃ item d, item ∈ Re.findall email_pat (pre ++ m ++ post)
                 ∧ Email_init item = Raise (invalid_domain d)).
Proof.
  intros Hre.
  assert (Hm : m ≠ "").
  { destruct (email_pat_shape _ Hre) as (a & b & c & -> & Ha & _). by destruct a. }
  pose proof (findall_nonempty email_pat pre m post Hre Hm) as Hne.
  split; [done|].
  destruct (Re.findall email_pat (pre ++ m ++ post)) as [|item l] eqn:E; [done|].
  assert (Hin : item ∈ Re.findall email_pat (pre ++ m ++ post))
    by (rewrite E; apply list_elem_of_here).
  destruct (findall_item_cases _ _ Hin) as [_ [(e & He & Hel)|(d & Hd & _)]].
  - left. intros Hnil. rewrite Hnil in Hel. by apply elem_of_nil in Hel.
  - right. exists item, d. by rewrite <- E.
Qed.

Lemma Email_findall_finds_witness :
  Re.findall email_pat ("mail " ++ "a@b.com" ++ " now") ≠ []
  ∧ (Email_findall ("mail " ++ "a@b.com" ++ " now") ≠ []
     ∨ ∃ item d, item ∈ Re.findall email_pat ("mail " ++ "a@b.com" ++ " now")
                 ∧ Email_init item = Raise (invalid_domain d)).
Proof.
  apply (Email_findall_finds "mail " "a@b.com" " now").
  apply (matches_plus word_dot_char _ "a" "@b.com"); [discriminate|reflexivity|].
  apply matches_lit.
  apply (matches_plus word_dot_char _ "b" ".com"); [discriminate|reflexivity|].
  apply matches_lit.
  apply (matches_plus word_char [] "com" ""); [discriminate|reflexivity|].
  apply matches_nil.
Defined.

End ExtractorExtras.

(** ** Further properties of the breach check *)

Section PwnedExtras.

Variable requests_get : string → nat → http_result.
Variable float_of_text : string → option float.
Variable time_sleep : float → option exn.

Abbreviation attempt'' := (attempt requests_get float_of_text time_sleep).
Abbreviation pwned'' := (pwned requests_get float_of_text time_sleep).

(** A pass that returns a value: the request was answered 200 or 404. *)
Lemma attempt_Stop_Ok calls self trace s b t :
  attempt'' calls self trace = Stop s (Ok b) t →
  (∃ headers, requests_get (pwned_url self) calls
              = GetReturns (if b then 200 else 404) headers)
  ∧ s = mkEmail (email_addr self) (name self) (domain self) (_tld self) (country self)
          (pwned_sleep self)
          (Some (if b then "address breached" else "address not breached")) None
  ∧ t = trace ++ [Get (pwned_url self); Sleep (pwned_sleep self)].
Proof.
  unfold attempt, sleep_then. fold (pwned_url self).
  destruct (requests_get (pwned_url self) calls) as [e|status_code headers]; [done|].
  unfold pwned_status_codes.
  destruct (Z.eqb_spec status_code 200) as [->|_].
  { destruct (time_sleep _); [done|].
    intros [= <- <- <-]. split_and!; [by eexists|done|by rewrite <- app_assoc]. }
  destruct (Z.eqb_spec status_code 404) as [->|_].
  { destruct (time_sleep _); [done|].
    intros [= <- <- <-]. split_and!; [by eexists|done|by rewrite <- app_assoc]. }
  assert (Hrl : ∀ self0 tr0,
    (if String.eqb "rate limit" "rate limit"
     then match retry_after float_of_text headers (pwned_sleep self0) with
          | Ok d => if (80000 <? pwned_sleep (set_pwned_sleep self0 d))%float
                    then Stop (set_pwned_sleep self0 d) (Raise raise_TimeoutException) tr0
                    else match time_sleep (pwned_sleep (set_pwned_sleep self0 d)) with
                         | Some e =>
                             Stop (set_pwned_sleep self0 d) (Raise e)
                               (tr0 ++ [Sleep (pwned_sleep (set_pwned_sleep self0 d))])
                         | None =>
                             Next (set_pwned_sleep self0 d)
                               (tr0 ++ [Sleep (pwned_sleep (set_pwned_sleep self0 d))])
                         end
          | Raise e => Stop self0 (Raise e) tr0
          end
     else match time_sleep (pwned_sleep self0) with
          | Some e => Stop self0 (Raise e) (tr0 ++ [Sleep (pwned_sleep self0)])
          | None => Next self0 (tr0 ++ [Sleep (pwned_sleep self0)])
          end) ≠ Stop s (Ok b) t).
  { intros self0 tr0. rewrite String.eqb_refl.
    destruct (retry_after _ _ _); [|done].
    destruct (80000 <? _)%float; [done|]. by destruct (time_sleep _). }
  destruct (status_code =? 429); [intros H; by apply Hrl in H|].
  destruct (status_code =? 503); [intros H; by apply Hrl in H|].
  cbv beta iota. destruct (String.eqb _ "rate limit"); by destruct (time_sleep _).
Qed.

(** X11: a breach check returns a value only on a final answer. If it
    returns True, a request (the first or the second) was answered 200; if
    it returns False, a request was answered 404. The object then has the
    matching status text and no last error, and the last thing done was one
    sleep of the current backoff after that request. *)
Theorem pwned_returns_only_on_200_404 (self self' : Email) (b : bool) (trace : list event) :
  pwned'' self = (self', Ok b, trace) →
  (∃ calls headers,
     (calls < 2)%nat
     ∧ requests_get (pwned_url self) calls = GetReturns (if b then 200 else 404) headers)
  ∧ pwned_status self' = Some (if b then "address breached" else "address not breached")
  ∧ last_error self' = None
  ∧ ∃ before, trace = before ++ [Get (pwned_url self); Sleep (pwned_sleep self')].
Proof.
  unfold pwned. simpl.
  destruct (attempt'' 0 self []) as [s1 t1|s1 r1 t1] eqn:H1.
  - pose proof (attempt_frame requests_get float_of_text time_sleep 0 self []) as F.
    rewrite H1 in F. apply same_parsed_str in F.
    destruct (attempt'' 1 s1 t1) as [s2 t2|s2 r2 t2] eqn:H2; [done|].
    intros [= <- -> <-].
    apply attempt_Stop_Ok in H2 as ((hs & Hget) & -> & ->).
    unfold pwned_url in *. rewrite <- F in *.
    split_and!; [by exists 1%nat, hs; split; [lia|]|done|done|by exists t1].
  - intros [= <- -> <-].
    apply attempt_Stop_Ok in H1 as ((hs & Hget) & -> & ->).
    split_and!; [by exists 0%nat, hs; split; [lia|]|done|done|by exists []].
Qed.

Lemma sleeps_ok_snoc d0 trace ev :
  sleeps_ok d0 trace →
  match ev with
  | Sleep d => d = d0 ∨ (80000 <? d)%float = false
  | Get _ => True
  end →
  sleeps_ok d0 (trace ++ [ev]).
Proof.
  intros Ht Hev d [Hin|Hin]%elem_of_app; [by apply Ht|].
  apply list_elem_of_singleton in Hin. by subst ev.
Qed.

(** One pass keeps the sleeps within bounds, and so the backoff it leaves
    for the next pass. *)
Lemma attempt_sleeps d0 calls self trace :
  sleeps_ok d0 trace →
  pwned_sleep self = d0 ∨ (80000 <? pwned_sleep self)%float = false →
  match attempt'' calls self trace with
  | Next s t => sleeps_ok d0 t
                ∧ (pwned_sleep s = d0 ∨ (80000 <? pwned_sleep s)%float = false)
  | Stop s r t => sleeps_ok d0 t
  end.
Proof.
  intros Ht Hs. unfold attempt, sleep_then.
  set (url := ("https://haveibeenpwned.com/api/v2/breachedaccount/" ++ Email_str self)%string).
  assert (Hg : sleeps_ok d0 (trace ++ [Get url])) by (by apply sleeps_ok_snoc).
  destruct (requests_get url calls) as [e|status_code headers]; [done|].
  destruct (pwned_status_codes status_code) as [status [b|]].
  { destruct (time_sleep _); by apply sleeps_ok_snoc. }
  destruct (String.eqb status "rate limit").
  - destruct (retry_after _ _ _) as [d|e]; [|done].
    cbn [set_pwned_sleep pwned_sleep].
    destruct (80000 <? d)%float eqn:E; [done|].
    destruct (time_sleep d); [|split]; try apply sleeps_ok_snoc; auto.
  - destruct (time_sleep _); [|split]; try (by apply sleeps_ok_snoc); done.
Qed.

Lemma attempt_sleep_count calls self trace :
  match attempt'' calls self trace with
  | Next _ t | Stop _ _ t =>
      (length (filter is_Sleep t) ≤ S (length (filter is_Sleep trace)))%nat
  end.
Proof.
  assert (Hg : ∀ t url, length (filter is_Sleep (t ++ [Get url])) = length (filter is_Sleep t)).
  { intros t url. rewrite filter_app, length_app. simpl. lia. }
  assert (Hs : ∀ t d, length (filter is_Sleep (t ++ [Sleep d]))
                      = S (length (filter is_Sleep t))).
  { intros t d. rewrite filter_app, length_app. simpl. lia. }
  unfold attempt, sleep_then.
  destruct (requests_get _ calls) as [e|status_code headers]; [rewrite Hg; lia|].
  destruct (pwned_status_codes status_code) as [status [b|]];
    [destruct (time_sleep _); rewrite Hs, Hg; lia|].
  destruct (String.eqb status "rate limit");
    [|destruct (time_sleep _); rewrite Hs, Hg; lia].
  destruct (retry_after _ _ _) as [d|e]; [|rewrite Hg; lia].
  destruct (80000 <? _)%float;
    [rewrite Hg; lia|destruct (time_sleep _); rewrite Hs, Hg; lia].
Qed.

(** X12: a breach check never sleeps a duration above 80000 seconds that a
    server sent in this call: every sleep lasts the backoff the object came
    with, or a retry-after value that does not exceed 80000. There are at
    most two sleeps, never more than one per request. *)
Theorem pwned_sleeps_bounded (self : Email) :
  (∀ d, Sleep d ∈ (pwned'' self).2 →
        d = pwned_sleep self ∨ (80000 <? d)%float = false)
  ∧ (length (filter is_Sleep (pwned'' self).2) ≤ 2)%nat.
Proof.
  unfold pwned. simpl. split.
  - assert (H0 : sleeps_ok (pwned_sleep self) []) by (by intros d ?%elem_of_nil).
    pose proof (attempt_sleeps (pwned_sleep self) 0 self [] H0 (or_introl eq_refl)) as H1.
    destruct (attempt'' 0 self []) as [s1 t1|s1 r1 t1]; [|done].
    destruct H1 as [Ht1 Hs1].
    pose proof (attempt_sleeps (pwned_sleep self) 1 s1 t1 Ht1 Hs1) as H2.
    destruct (attempt'' 1 s1 t1) as [s2 t2|s2 r2 t2]; [by destruct H2|done].
  - pose proof (attempt_sleep_count 0 self []) as H1.
    destruct (attempt'' 0 self []) as [s1 t1|s1 r1 t1]; simpl in *; [|lia].
    pose proof (attempt_sleep_count 1 s1 t1) as H2.
    destruct (attempt'' 1 s1 t1) as [s2 t2|s2 r2 t2]; simpl in *; lia.
Qed.

(** X13: when [requests.get] raises on both attempts, the call makes the
    two requests one after the other without sleeping in between, keeps the
    second error as [last_error], and raises the exception of the exhausted
    retries with the text of that second error. *)
Theorem pwned_two_transport_errors (self : Email) (e1 e2 : exn) :
  requests_get (pwned_url self) 0 = GetRaises e1 →
  requests_get (pwned_url self) 1 = GetRaises e2 →
  pwned'' self
  = (set_last_error self (Some e2),
     Raise (Exception ("pwned " ++ Email_str self ++ ": failed max retry, last error "
                       ++ exn_str e2)),
     [Get (pwned_url self); Get (pwned_url self)]).
Proof.
  intros H1 H2. unfold pwned. simpl. unfold attempt at 1. fold (pwned_url self).
  rewrite H1. unfold attempt.
  change (Email_str (set_last_error self (Some e1))) with (Email_str self).
  fold (pwned_url self). rewrite H2. reflexivity.
Qed.

(** X14: a rate-limited answer (429 or 503) without a retry-after header,
    under any spelling of the name, leaves the backoff as it is. If that
    backoff already exceeds 80000 the call ends as for a retry-after above
    80000. Otherwise the pass calls [time.sleep] on the current backoff:
    when that returns the loop goes on, and when it raises (a negative
    backoff, nan) the exception ends the call. *)
Theorem attempt_rate_limited_without_header calls self trace status_code headers :
  requests_get (pwned_url self) calls = GetReturns status_code headers →
  status_code = 429 ∨ status_code = 503 →
  (∀ k v, (k, v) ∈ headers → Str.lower k ≠ "retry-after") →
  attempt'' calls self trace
  = let self' := mkEmail (email_addr self) (name self) (domain self) (_tld self)
                   (country self) (pwned_sleep self) (Some "rate limit") None in
    if (80000 <? pwned_sleep self)%float
    then Stop self' (Raise raise_TimeoutException) (trace ++ [Get (pwned_url self)])
    else match time_sleep (pwned_sleep self) with
         | Some e =>
             Stop self' (Raise e)
               ((trace ++ [Get (pwned_url self)]) ++ [Sleep (pwned_sleep self)])
         | None =>
             Next self' ((trace ++ [Get (pwned_url self)]) ++ [Sleep (pwned_sleep self)])
         end.
Proof.
  intros Hget Hcode Hno.
  apply attempt_rate_limited with (status_code := status_code) (headers := headers);
    [done..|].
  unfold retry_after.
  destruct (lower_headers headers !! "retry-after") as [v|] eqn:E; [|done].
  apply lower_headers_Some in E as (k & Hin & Hk). by apply Hno in Hin.
Qed.

End PwnedExtras.

Lemma pwned_returns_only_on_200_404_witness :
  (∃ calls headers,
     (calls < 2)%nat
     ∧ net_200 (pwned_url addr_com) calls = GetReturns (if true then 200 else 404) headers)
  ∧ pwned_status (mkEmail "a@b.com" "a" "b" (Some "com") None 1.7
                    (Some "address breached") None)
    = Some (if true then "address breached" else "address not breached")
  ∧ last_error (mkEmail "a@b.com" "a" "b" (Some "com") None 1.7
                  (Some "address breached") None) = None
  ∧ ∃ before,
      [Get "https://haveibeenpwned.com/api/v2/breachedaccount/a@b.com"; Sleep 1.7]
      = before ++ [Get (pwned_url addr_com);
                   Sleep (pwned_sleep (mkEmail "a@b.com" "a" "b" (Some "com") None 1.7
                                         (Some "address breached") None))].
Proof.
  apply (pwned_returns_only_on_200_404 net_200 float_of_digits time_sleep_py addr_com).
  vm_compute. reflexivity.
Defined.


Lemma pwned_sleeps_bounded_witness :
  Sleep 1.7 ∈ (pwned net_error_then_500 float_of_digits time_sleep_py addr_com).2
  ∧ (1.7%float = pwned_sleep addr_com ∨ (80000 <? 1.7)%float = false).
Proof.
  assert (H : Sleep 1.7
              ∈ (pwned net_error_then_500 float_of_digits time_sleep_py addr_com).2).
  { vm_compute. do 2 apply list_elem_of_further. apply list_elem_of_here. }
  split; [exact H|].
  exact (proj1 (pwned_sleeps_bounded net_error_then_500 float_of_digits time_sleep_py
                  addr_com) _ H).
Defined.

Lemma pwned_two_transport_errors_witness :
  pwned net_down float_of_digits time_sleep_py addr_com
  = (set_last_error addr_com (Some (RequestException "refused")),
     Raise (Exception ("pwned " ++ Email_str addr_com ++ ": failed max retry, last error "
                       ++ exn_str (RequestException "refused"))),
     [Get (pwned_url addr_com); Get (pwned_url addr_com)]).
Proof.
  apply (pwned_two_transport_errors net_down float_of_digits time_sleep_py addr_com
           (RequestException "timed out") (RequestException "refused"));
    reflexivity.
Defined.

Lemma attempt_rate_limited_without_header_witness :
  attempt net_503 float_of_digits time_sleep_py 0 addr_com []
  = Next (mkEmail "a@b.com" "a" "b" (Some "com") None 1.7 (Some "rate limit") None)
      [Get "https://haveibeenpwned.com/api/v2/breachedaccount/a@b.com"; Sleep 1.7].
Proof.
  apply (attempt_rate_limited_without_header net_503 float_of_digits time_sleep_py
           0 addr_com [] 503 [("Server", "cloudflare")]).
  - reflexivity.
  - right. reflexivity.
  - intros k v H%list_elem_of_singleton. injection H as -> ->. vm_compute. intros [=].
Defined.

(** X15: the backoff a server sets stays on the object after the call.
    After a call that ends on a rate-limited answer whose retry-after value
    [d] exceeds 80000, the object carries [d]; a later call on the same
    object that is answered 200 calls [time.sleep(d)] before anything else:
    it returns True when that sleep returns, and ends with the exception of
    [time.sleep] when it raises (a [d] too large for the clock). *)
Theorem pwned_backoff_persists
    (net1 net2 : string → nat → http_result) (float_of_text : string → option float)
    (time_sleep : float → option exn)
    (self : Email) (status_code : Z) (headers headers2 : list (string * string))
    (d : float) :
  net1 (pwned_url self) 0%nat = GetReturns status_code headers →
  status_code = 429 ∨ status_code = 503 →
  retry_after float_of_text headers (pwned_sleep self) = Ok d →
  (80000 <? d)%float = true →
  net2 (pwned_url self) 0%nat = GetReturns 200 headers2 →
  ∃ self1,
    pwned net1 float_of_text time_sleep self
    = (self1, Raise raise_TimeoutException, [Get (pwned_url self)])
    ∧ pwned_sleep self1 = d
    ∧ pwned net2 float_of_text time_sleep self1
      = (set_pwned_status (set_last_error self1 None) "address breached",
         match time_sleep d with
         | Some e => Raise e
         | None => Ok true
         end,
         [Get (pwned_url self); Sleep d]).
Proof.
  intros H1 Hcode Hra Hd H2.
  pose proof (attempt_rate_limited net1 float_of_text time_sleep 0%nat self []
                status_code headers d H1 Hcode Hra) as Ha.
  cbv zeta in Ha. rewrite Hd in Ha.
  exists (mkEmail (email_addr self) (name self) (domain self) (_tld self)
            (country self) d (Some "rate limit") None).
  split_and!.
  - unfold pwned. simpl. rewrite Ha. reflexivity.
  - reflexivity.
  - unfold pwned, pwned_url in *. simpl. unfold attempt, sleep_then, Email_str, tld in *.
    cbn [name domain _tld country]. rewrite H2.
    cbn [pwned_status_codes Z.eqb Pos.eqb set_pwned_status set_last_error pwned_sleep].
    by destruct (time_sleep d).
Qed.

(** A retry-after of 1e10 seconds stays on the object as well; the later
    call, answered 200, then ends with the OverflowError of
    [time.sleep(1e10)] and returns nothing. *)
Example pwned_backoff_overflow :
  let self1 := (pwned net_retry_after_1e10 float_of_digits time_sleep_py addr_com).1.1 in
  pwned_sleep self1 = 10000000000%float
  ∧ pwned net_200 float_of_digits time_sleep_py self1
    = (mkEmail "a@b.com" "a" "b" (Some "com") None 10000000000
         (Some "address breached") None,
       Raise (OverflowError "timestamp too large to convert to C _PyTime_t"),
       [Get "https://haveibeenpwned.com/api/v2/breachedaccount/a@b.com";
        Sleep 10000000000]).
Proof. split; vm_compute; reflexivity. Qed.

Lemma pwned_backoff_persists_witness :
  ∃ self1,
    pwned net_retry_after_90000 float_of_digits time_sleep_py addr_com
    = (self1, Raise raise_TimeoutException, [Get (pwned_url addr_com)])
    ∧ pwned_sleep self1 = 90000%float
    ∧ pwned net_200 float_of_digits time_sleep_py self1
      = (set_pwned_status (set_last_error self1 None) "address breached",
         Ok true,
         [Get (pwned_url addr_com); Sleep 90000]).
Proof.
  apply (pwned_backoff_persists net_retry_after_90000 net_200 float_of_digits time_sleep_py
           addr_com 429 [("Retry-After", "90000")] []).
  - reflexivity.
  - left. reflexivity.
  - vm_compute. reflexivity.
  - vm_compute. reflexivity.
  - reflexivity.
Defined.

(** ** Further properties of the traversal loop *)

Section CrawlExtras.
Import CrawlFacts FindallFacts.

Lemma emails_update_lookup (m : gmap string Email) l k e :
  emails_update m l !! k = Some e →
  m !! k = Some e ∨ (e ∈ l ∧ email_addr e = k).
Proof.
  unfold emails_update. revert m. induction l as [|x l IH]; intros m; simpl; [auto|].
  intros [H|[H ?]]%IH; [|right; split; [by apply list_elem_of_further|done]].
  destruct (m !! email_addr x) eqn:E; [auto|].
  rewrite lookup_insert in H. case_decide as Hk; [|auto].
  injection H as ->. right. split; [apply list_elem_of_here|done].
Qed.

Lemma emails_update_mono (m : gmap string Email) l : m ⊆ emails_update m l.
Proof.
  unfold emails_update. revert m. induction l as [|x l IH]; intros m; simpl; [done|].
  etrans; [|apply IH].
  destruct (m !! email_addr x) eqn:E; [done|]. by apply insert_subseteq.
Qed.

(** What a pass does to the four parts of the state. *)
Lemma loop_body_changes link r st :
  let st' := state_of (loop_body link r st) in
  visited st' = visited st ∪ {[link]}
  ∧ error_count st ≤ error_count st' ≤ error_count st + 1
  ∧ emails st ⊆ emails st'
  ∧ (∀ k e, emails st' !! k = Some e →
            emails st !! k = Some e ∨ Email_init k = Ok e)
  ∧ (∀ x, x ∈ to_do_list st' →
          x ∈ to_do_list st ∖ {[link]} ∨ (x ∈ offered r ∧ x ∉ visited st'))
  ∧ (∀ x, x ∈ to_do_list st → x ≠ link → x ∈ to_do_list st').
Proof.
  unfold loop_body.
  assert (Hb : ∀ n, error_count st ≤ n ≤ error_count st + 1 →
    let st' := mkCrawl (to_do_list st ∖ {[link]}) (visited st ∪ {[link]}) (emails st) n in
    visited st' = visited st ∪ {[link]}
    ∧ error_count st ≤ error_count st' ≤ error_count st + 1
    ∧ emails st ⊆ emails st'
    ∧ (∀ k e, emails st' !! k = Some e → emails st !! k = Some e ∨ Email_init k = Ok e)
    ∧ (∀ x, x ∈ to_do_list st' →
            x ∈ to_do_list st ∖ {[link]} ∨ (x ∈ offered r ∧ x ∉ visited st'))
    ∧ (∀ x, x ∈ to_do_list st → x ≠ link → x ∈ to_do_list st')).
  { intros n Hn. simpl. split_and!; try done; try lia; [auto..|set_solver]. }
  destruct (over_budget _ _); [apply Hb; lia|].
  destruct r as [|status_code content_type content new_links]; [apply Hb; lia|].
  destruct (negb (status_code =? 200)); [apply Hb; lia|].
  destruct (negb (Str.contains _ _)); [apply Hb; lia|].
  destruct content as [content|]; [|apply Hb; lia].
  simpl. split_and!; try done; try lia.
  - apply emails_update_mono.
  - intros k e [H|[Hin Hk]]%emails_update_lookup; [auto|].
    right. apply findall_elem in Hin as (item & _ & He).
    by rewrite <- Hk, (Email_init_addr _ _ He).
  - intros x Hx%foldl_add_link_elem. set_solver.
  - intros x Hx Hne. apply foldl_add_link_elem. set_solver.
Qed.

Lemma reachable_fresh cleanaddress st link :
  reachable cleanaddress st → link ∈ to_do_list st →
  size (visited st ∪ {[link]}) = S (size (visited st)).
Proof.
  intros Hr Hin. pose proof (reachable_disjoint _ _ Hr) as Hd.
  rewrite size_union by set_solver. rewrite size_singleton. lia.
Qed.

(** X16: the error counter never runs ahead of the visits. At every test
    of the loop condition, and when the loop is left, the counter is at
    least 0 and at most the number of visited links; a pass raises it by one
    at most and never lowers it. *)
Theorem error_count_bounds (cleanaddress : string) :
  (∀ st, reachable cleanaddress st →
         0 ≤ error_count st ≤ Z.of_nat (size (visited st)))
  ∧ (∀ st, loop_exit cleanaddress st →
           0 ≤ error_count st ≤ Z.of_nat (size (visited st)))
  ∧ (∀ st link r,
       error_count st ≤ error_count (state_of (loop_body link r st))
                      ≤ error_count st + 1).
Proof.
  assert (H1 : ∀ st, reachable cleanaddress st →
                     0 ≤ error_count st ≤ Z.of_nat (size (visited st))).
  { induction 1 as [|st link r st' Hr IH Hin Hbody].
    - simpl. split; [done|]. apply Nat2Z.is_nonneg.
    - destruct (loop_body_changes link r st) as (Hv & He & _).
      rewrite Hbody in Hv, He. simpl in Hv, He.
      rewrite Hv, (reachable_fresh _ _ _ Hr Hin). lia. }
  split_and!; [done| |].
  - intros st [st' Hr _|st0 link r st' Hr Hin Hb]; [by apply H1|].
    destruct (loop_body_changes link r st0) as (Hv & He & _).
    rewrite Hb in Hv, He. simpl in Hv, He.
    rewrite Hv, (reachable_fresh _ _ _ Hr Hin). specialize (H1 _ Hr). lia.
  - intros st link r. by destruct (loop_body_changes link r st) as (_ & He & _).
Qed.

Lemma error_count_bounds_witness :
  0 ≤ error_count (crawl_init "http://h/")
  ≤ Z.of_nat (size (visited (crawl_init "http://h/"))).
Proof.
  apply (proj1 (error_count_bounds "http://h/") (crawl_init "http://h/")).
  apply reach_init.
Defined.

(** X17: the set of emails holds only what the constructor made, under its
    own text. At every test of the loop condition and when the loop is left,
    each element found under a text is the object that the constructor
    returns for that text; and a pass removes no element and replaces none. *)
Theorem emails_are_parsed (cleanaddress : string) :
  (∀ st k e, reachable cleanaddress st → emails st !! k = Some e → Email_init k = Ok e)
  ∧ (∀ st k e, loop_exit cleanaddress st → emails st !! k = Some e → Email_init k = Ok e)
  ∧ (∀ st link r k e,
       emails st !! k = Some e →
       emails (state_of (loop_body link r st)) !! k = Some e).
Proof.
  assert (H1 : ∀ st k e, reachable cleanaddress st →
                         emails st !! k = Some e → Email_init k = Ok e).
  { intros st k e Hr. revert k e.
    induction Hr as [|st link r st' Hr IH Hin Hbody]; intros k e.
    - simpl. by rewrite lookup_empty.
    - destruct (loop_body_changes link r st) as (_ & _ & _ & He & _).
      rewrite Hbody in He. simpl in He.
      intros [H|H]%He; [by apply IH|done]. }
  split_and!; [done| |].
  - intros st k e [st' Hr _|st0 link r st' Hr Hin Hb]; [by apply H1|].
    apply loop_body_Break in Hb as [_ ->]. simpl. by apply H1.
  - intros st link r k e Hk.
    destruct (loop_body_changes link r st) as (_ & _ & Hsub & _).
    by eapply lookup_weaken.
Qed.

Lemma emails_are_parsed_witness :
  Email_init "a@b.com" = Ok addr_com.
Proof.
  apply (proj1 (emails_are_parsed "http://h/")
           (state_of (loop_body "http://h/"
                        (Fetched 200 (Some "text/html") (Some "write to a@b.com") [])
                        (crawl_init "http://h/")))).
  - apply (reach_pass "http://h/" (crawl_init "http://h/") "http://h/"
             (Fetched 200 (Some "text/html") (Some "write to a@b.com") [])).
    + apply reach_init.
    + vm_compute. reflexivity.
    + vm_compute. reflexivity.
  - vm_compute. reflexivity.
Defined.

Lemma run_reachable cleanaddress history st :
  run cleanaddress history st → reachable cleanaddress st.
Proof.
  induction 1 as [|h st link r st' _ IH Hin Hbody]; [constructor|].
  by eapply reach_pass.
Qed.

Lemma reachable_run cleanaddress st :
  reachable cleanaddress st → ∃ history, run cleanaddress history st.
Proof.
  induction 1 as [|st link r st' _ [h IH] Hin Hbody].
  - exists []. constructor.
  - exists (h ++ [(link, r)]). by eapply run_pass.
Qed.

(** The visited set is the set of the links picked so far, each picked
    once. *)
Lemma run_visited cleanaddress history st :
  run cleanaddress history st →
  visited st = list_to_set history.*1
  ∧ NoDup history.*1
  ∧ size (visited st) = length history.
Proof.
  induction 1 as [|h st link r st' Hrun (Hv & Hnd & Hsz) Hin Hbody].
  - split_and!; [done|apply NoDup_nil_2|apply size_empty].
  - pose proof (run_reachable _ _ _ Hrun) as Hr.
    pose proof (reachable_disjoint _ _ Hr) as Hd.
    destruct (loop_body_changes link r st) as (Hv' & _).
    rewrite Hbody in Hv'. simpl in Hv'.
    rewrite fmap_app, length_app. simpl.
    split_and!.
    + rewrite Hv', Hv, list_to_set_app_L. simpl. set_solver.
    + apply NoDup_app. split_and!; [done| |apply NoDup_singleton].
      intros x Hx ->%list_elem_of_singleton.
      assert (link ∈ visited st) by (rewrite Hv; by apply elem_of_list_to_set).
      set_solver.
    + rewrite Hv', (reachable_fresh _ _ _ Hr Hin). lia.
Qed.

(** Every link the loop knows is the start address or was offered by a
    response. *)
Lemma run_known cleanaddress history st x :
  run cleanaddress history st →
  x ∈ visited st ∪ to_do_list st →
  x = cleanaddress ∨ ∃ l r, (l, r) ∈ history ∧ x ∈ offered r.
Proof.
  intros Hrun. revert x.
  induction Hrun as [|h st link r st' Hrun IH Hin Hbody]; intros x.
  - simpl. set_solver.
  - destruct (loop_body_changes link r st) as (Hv & _ & _ & _ & Ht & _).
    rewrite Hbody in Hv, Ht. simpl in Hv, Ht.
    assert (Hold : x ∈ visited st ∪ to_do_list st →
                   x = cleanaddress ∨ ∃ l r0, (l, r0) ∈ h ++ [(link, r)] ∧ x ∈ offered r0).
    { intros [?|(l & r0 & ? & ?)]%IH; [by left|].
      right. exists l, r0. split; [apply elem_of_app; by left|done]. }
    rewrite Hv. intros [[Hx|Hx]%elem_of_union|Hx]%elem_of_union.
    + apply Hold. set_solver.
    + apply Hold. set_solver.
    + apply Ht in Hx as [Hx|[Hx _]]; [apply Hold; set_solver|].
      right. exists link, r. split; [|done]. apply elem_of_app. right.
      apply list_elem_of_here.
Qed.

(** X18: no link is picked twice from the to-do set, and a finite site ends
    the crawl. The links picked in the passes made so far are pairwise
    different and are exactly the visited set, so [links_visited] counts the
    passes. If every link that the responses offer lies in a finite set, the
    number of passes is at most the size of that set plus one for the start
    address: the loop cannot go on for ever there. This bounds the passes,
    not the requests: a pass whose request fails makes a second one (lines
    222-230), to the same address when the link already starts with
    https. *)
Theorem crawl_passes_bounded (cleanaddress : string) (history : list (string * fetched))
    (st : crawl) (site : gset string) :
  run cleanaddress history st →
  (∀ l r x, (l, r) ∈ history → x ∈ offered r → x ∈ site) →
  NoDup history.*1
  ∧ visited st = list_to_set history.*1
  ∧ links_visited st = Z.of_nat (length history)
  ∧ (length history ≤ size (site ∪ {[cleanaddress]}))%nat.
Proof.
  intros Hrun Hsite.
  destruct (run_visited _ _ _ Hrun) as (Hv & Hnd & Hsz).
  split_and!; try done.
  - unfold links_visited. by rewrite Hsz.
  - rewrite <- Hsz. apply subseteq_size. intros x Hx.
    destruct (run_known cleanaddress history st x Hrun) as [->|(l & r & Hin & Hoff)];
      [set_solver|set_solver|].
    apply elem_of_union. left. by eapply Hsite.
Qed.

Lemma crawl_passes_bounded_witness :
  NoDup ([] ++ [("http://h/", Fetched 200 (Some "text/html") (Some "no mail")
                                ["http://h/a"; "http://h/"])]).*1
  ∧ visited (state_of (loop_body "http://h/"
                         (Fetched 200 (Some "text/html") (Some "no mail")
                            ["http://h/a"; "http://h/"])
                         (crawl_init "http://h/")))
    = list_to_set
        ([] ++ [("http://h/", Fetched 200 (Some "text/html") (Some "no mail")
                                ["http://h/a"; "http://h/"])]).*1
  ∧ links_visited (state_of (loop_body "http://h/"
                               (Fetched 200 (Some "text/html") (Some "no mail")
                                  ["http://h/a"; "http://h/"])
                               (crawl_init "http://h/")))
    = Z.of_nat (length ([] ++ [("http://h/",
                                Fetched 200 (Some "text/html") (Some "no mail")
                                  ["http://h/a"; "http://h/"])]))
  ∧ (length ([] ++ [("http://h/", Fetched 200 (Some "text/html") (Some "no mail")
                                    ["http://h/a"; "http://h/"])])
     ≤ size (({[ "http://h/a"; "http://h/" ]} : gset string) ∪ {["http://h/"]}))%nat.
Proof.
  apply (crawl_passes_bounded "http://h/").
  - apply (run_pass "http://h/" [] (crawl_init "http://h/") "http://h/").
    + apply run_start.
    + vm_compute. reflexivity.
    + vm_compute. reflexivity.
  - intros l r x H Hx. apply list_elem_of_singleton in H. injection H as -> ->.
    simpl in Hx. apply elem_of_cons in Hx as [Hx|Hx]; [subst x; set_solver|].
    apply list_elem_of_singleton in Hx. subst x. set_solver.
Defined.

(** X19: the passes recorded by [run] are all there is: a state is at the
    loop test after some passes exactly when it is reachable. Between two
    tests nothing the loop knows is lost: a link that was visited stays
    visited, and a link that was to do is to do or visited afterwards. *)
Theorem crawl_keeps_what_it_knows (cleanaddress : string) :
  (∀ st, reachable cleanaddress st ↔ ∃ history, run cleanaddress history st)
  ∧ (∀ st link r,
       link ∈ to_do_list st →
       visited st ⊆ visited (state_of (loop_body link r st))
       ∧ visited st ∪ to_do_list st
         ⊆ visited (state_of (loop_body link r st))
           ∪ to_do_list (state_of (loop_body link r st))).
Proof.
  split.
  - intros st. split; [apply reachable_run|]. intros [h Hrun]. by eapply run_reachable.
  - intros st link r Hin.
    destruct (loop_body_changes link r st) as (Hv & _ & _ & _ & _ & Hkeep).
    rewrite Hv. split; [set_solver|].
    intros x [Hx|Hx]%elem_of_union; [set_solver|].
    destruct (decide (x = link)) as [->|Hne]; [set_solver|].
    apply elem_of_union. right. by apply Hkeep.
Qed.

Lemma crawl_keeps_what_it_knows_witness :
  visited (crawl_init "http://h/")
  ⊆ visited (state_of (loop_body "http://h/" FetchRaises (crawl_init "http://h/")))
  ∧ visited (crawl_init "http://h/") ∪ to_do_list (crawl_init "http://h/")
    ⊆ visited (state_of (loop_body "http://h/" FetchRaises (crawl_init "http://h/")))
      ∪ to_do_list (state_of (loop_body "http://h/" FetchRaises (crawl_init "http://h/"))).
Proof.
  apply (proj2 (crawl_keeps_what_it_knows "http://h/")
           (crawl_init "http://h/") "http://h/" FetchRaises).
  vm_compute. reflexivity.
Defined.

End CrawlExtras.

(** ** Properties of the link filters *)

Section LinkExtras.
Import Str StrFacts EmailFacts.

Lemma before_first_spec sep s :
  ∃ rest, s = (before_first sep s ++ rest)%string
          ∧ nochar sep (before_first sep s) = true
          ∧ (rest = "" ∨ ∃ r, rest = String sep r).
Proof.
  unfold before_first.
  pose proof (join_split sep s) as J. pose proof (split_labels sep s) as L.
  pose proof (split_not_nil sep s) as Hne.
  destruct (split sep s) as [|w ws]; [done|].
  inversion L as [|? ? Hw _]; subst. simpl hd.
  destruct ws as [|w' ws].
  - exists "". simpl. rewrite append_nil_r. auto.
  - rewrite join_cons by done.
    exists (String sep (join (String sep "") (w' :: ws))). split_and!; eauto.
Qed.

Lemma before_first_id sep s : nochar sep s = true → before_first sep s = s.
Proof. intros H. unfold before_first. by rewrite split_nochar. Qed.

Lemma nochar_prefix x a b : nochar x (a ++ b) = true → nochar x a = true.
Proof. rewrite nochar_app. by intros [? _]%andb_true_iff. Qed.

Lemma before_first_keeps x sep s : nochar x s = true → nochar x (before_first sep s) = true.
Proof.
  intros H. destruct (before_first_spec sep s) as (rest & Hs & _).
  rewrite Hs in H. by eapply nochar_prefix.
Qed.

(** X20: the cleaned path is the longest beginning of the path that holds
    none of the characters #, & and @: the path is the cleaned path followed
    by nothing or by a rest that starts with one of the three. Cleaning a
    cleaned path changes nothing, and a path without the three characters is
    left as it is. *)
Theorem clean_path_spec (parsed_url_path : string) :
  (∃ rest,
     parsed_url_path = (clean_path parsed_url_path ++ rest)%string
     ∧ (rest = "" ∨ ∃ c r, rest = String c r
                           ∧ (c = "#" ∨ c = "&" ∨ c = "@")%char))
  ∧ nochar "#" (clean_path parsed_url_path) = true
  ∧ nochar "&" (clean_path parsed_url_path) = true
  ∧ nochar "@" (clean_path parsed_url_path) = true
  ∧ clean_path (clean_path parsed_url_path) = clean_path parsed_url_path
  ∧ (nochar "#" parsed_url_path = true → nochar "&" parsed_url_path = true →
     nochar "@" parsed_url_path = true → clean_path parsed_url_path = parsed_url_path).
Proof.
  unfold clean_path.
  destruct (before_first_spec "#" parsed_url_path) as (r1 & H1 & N1 & R1).
  set (b1 := before_first "#" parsed_url_path) in *.
  destruct (before_first_spec "&" b1) as (r2 & H2 & N2 & R2).
  set (b2 := before_first "&" b1) in *.
  destruct (before_first_spec "@" b2) as (r3 & H3 & N3 & R3).
  set (b3 := before_first "@" b2) in *.
  assert (N3' : nochar "&" b3 = true) by (by apply before_first_keeps).
  assert (N3'' : nochar "#" b3 = true) by (by do 2 apply before_first_keeps).
  split_and!; try done.
  - exists (r3 ++ r2 ++ r1)%string. split.
    { rewrite H1 at 1. rewrite H2 at 1. rewrite H3 at 1. by rewrite !append_assoc. }
    destruct R3 as [->|(r & ->)]; [|right; exists "@"%char; eauto].
    destruct R2 as [->|(r & ->)]; [|right; exists "&"%char; eauto].
    destruct R1 as [->|(r & ->)]; [by left|right; exists "#"%char; eauto].
  - rewrite (before_first_id "#" b3) by done.
    rewrite (before_first_id "&" b3) by done. by apply before_first_id.
  - intros Ha Hb Hc. unfold b3, b2, b1.
    rewrite (before_first_id "#") by done.
    rewrite (before_first_id "&") by done. by apply before_first_id.
Qed.

Lemma clean_path_spec_witness :
  clean_path "/people/a-b_c" = "/people/a-b_c".
Proof.
  apply (proj2 (proj2 (proj2 (proj2 (proj2 (clean_path_spec "/people/a-b_c"))))));
    reflexivity.
Defined.

Lemma split_app_sep_any sep b c :
  split sep (b ++ String sep c) = split sep b ++ split sep c.
Proof.
  induction b as [|x b IH]; simpl.
  - by rewrite Ascii.eqb_refl.
  - rewrite IH. destruct (Ascii.eqb x sep); [done|].
    pose proof (split_not_nil sep b). by destruct (split sep b).
Qed.

Lemma last_split_suffix b ext :
  nochar "." ext = true → List.last (split "." (b ++ "." ++ ext)) "" = ext.
Proof.
  intros H. change (b ++ "." ++ ext)%string with (b ++ String "." ext)%string.
  by rewrite split_app_sep_any, (split_nochar "." ext), last_last.
Qed.

Lemma split_lower_dot s : split "." (lower s) = map lower (split "." s).
Proof.
  induction s as [|c s IH]; simpl; [done|].
  rewrite lower_char_dot, IH. destruct (Ascii.eqb c "."); [done|].
  pose proof (split_not_nil "." s). by destruct (split "." s).
Qed.

Lemma last_map_lower l : List.last (map lower l) "" = lower (List.last l "").
Proof.
  induction l as [|w l IH]; [done|]. destruct l; [done|]. exact IH.
Qed.

(** X21: the file-type filter on links looks only at the text after the
    last dot of the path, and ignores its case: a path is skipped exactly
    when that text, lower-cased, is one of the skipped types (for a path
    without a dot the text is the whole path). *)
Theorem skipped_type_spec (stem ext : string) :
  skipped_type (lower (stem ++ "." ++ ext)) = skipped_type (stem ++ "." ++ ext)
  ∧ (nochar "." ext = true →
     skipped_type (stem ++ "." ++ ext) = mem (lower ext) skip_types
     ∧ skipped_type ext = mem (lower ext) skip_types).
Proof.
  split.
  - unfold skipped_type. by rewrite split_lower_dot, last_map_lower, lower_idem.
  - intros H. unfold skipped_type.
    by rewrite last_split_suffix, (split_nochar "." ext).
Qed.

Lemma skipped_type_spec_witness :
  skipped_type ("/files/Report" ++ "." ++ "PDF") = mem (lower "PDF") skip_types
  ∧ skipped_type "PDF" = mem (lower "PDF") skip_types.
Proof. apply (proj2 (skipped_type_spec "/files/Report" "PDF")). reflexivity. Defined.

(** X22: the file-type test of the address constructor, unlike the one on
    links, compares the last label as it is written. A text whose last
    label is a skipped type in another case (PNG, Pdf) is a link that the
    crawl skips and an address that the constructor accepts. *)
Theorem Email_init_file_type_as_written (n b ext : string) :
  nochar "@" n = true → nochar "@" b = true →
  nochar "@" ext = true → nochar "." ext = true →
  ext ≠ "x" → ¬ In ext skip_types → In (lower ext) skip_types →
  (∃ e, Email_init (n ++ "@" ++ b ++ "." ++ ext) = Ok e)
  ∧ skipped_type (b ++ "." ++ ext) = true.
Proof.
  intros Hn Hb He Hdot Hx Hskip Hlow. split.
  - pose proof (Email_init_cases (n ++ "@" ++ b ++ "." ++ ext)) as Hc.
    rewrite split_at_address in Hc; [|done|].
    2: { rewrite !nochar_app, Hb, He. done. }
    assert (last_label_ok (split "." (b ++ "." ++ ext)) = true) as Hok.
    { unfold last_label_ok. rewrite last_split_suffix by done.
      apply negb_true_iff, orb_false_iff. split; [by apply String.eqb_neq|].
      destruct (mem ext skip_types) eqn:E; [by apply mem_In in E|done]. }
    by rewrite Hok in Hc.
  - unfold skipped_type. rewrite last_split_suffix by done. by apply mem_In.
Qed.

Lemma Email_init_file_type_as_written_witness :
  (∃ e, Email_init ("logo" ++ "@" ++ "2x" ++ "." ++ "PNG") = Ok e)
  ∧ skipped_type ("2x" ++ "." ++ "PNG") = true.
Proof.
  apply Email_init_file_type_as_written; try reflexivity.
  - intros [=].
  - simpl. intros H. repeat (destruct H as [[=]|H]). exact H.
  - vm_compute. do 5 right. left. reflexivity.
Defined.



Lemma split_str_not_nil sep skip s : split_str sep skip s ≠ [].
Proof.
  revert skip. induction s as [|c s IH]; intros skip; [done|].
  cbn [split_str]. destruct skip; [|apply IH].
  destruct (startswith (String c s) sep); [done|].
  pose proof (IH 0%nat). by destruct (split_str sep 0 s).
Qed.













End LinkExtras.
